(** * Tree view: model builder, selection / expansion state and keyboard
    navigation of the [TreeView] component (tree-view.tsx).

    The component is modelled by explicit state passing.  React state
    ([selectedItemId], [expandedItems], [draggedItem]) is a record, every
    event handler is a function from state to state, and the calls made to the
    caller's callbacks are appended to a trace kept in the state. *)

From stdpp Require Import base list strings gmap.

Open Scope string_scope.
Open Scope list_scope.

(** ** Data model *)

(** The fields of [interface TreeDataItem] other than [children] and [parent].
    Glyphs, action content and callbacks are opaque to the component, so they
    are represented by handles. *)
Record ItemFields := mkFields {
  id : string;
  name : string;
  icon : option nat;
  selectedIcon : option nat;
  openIcon : option nat;
  actions : option nat;
  onClick : option nat;
  draggable : option bool;
  droppable : option bool
}.

Local Unset Elimination Schemes.

(** Caller-supplied items.  The optional [parent] field of the interface does
    not appear: [processItems] overwrites it in every copy it makes. *)
Inductive TreeDataItem : Type :=
  Item (f : ItemFields) (children : option (list TreeDataItem)).

Definition itemFields (i : TreeDataItem) : ItemFields :=
  match i with Item f _ => f end.
Definition itemChildren (i : TreeDataItem) : option (list TreeDataItem) :=
  match i with Item _ c => c end.

(** [data: TreeDataItem[] | TreeDataItem] *)
Inductive TreeData : Type :=
| DataArray (items : list TreeDataItem)
| DataItem (item : TreeDataItem).

(** Identities of the objects created by [processItems]. *)
Abbreviation addr := nat (only parsing).

(** Objects created by [processItems].  Every object literal [{...item,
    parent}] is a fresh object with its own identity, and the [parent]
    reference of a child holds the identity of the object it points to.  The
    processed tree is never mutated once it is built, so a node is stored by
    value in its parent's [children]. *)
Inductive ProcessedItem : Type :=
  Node (a : addr) (f : ItemFields)
       (children : option (list ProcessedItem)) (parent : option addr).

Local Set Elimination Schemes.

Definition address (n : ProcessedItem) : addr :=
  match n with Node a _ _ _ => a end.
Definition fields (n : ProcessedItem) : ItemFields :=
  match n with Node _ f _ _ => f end.
Definition children (n : ProcessedItem) : option (list ProcessedItem) :=
  match n with Node _ _ c _ => c end.
Definition parent (n : ProcessedItem) : option addr :=
  match n with Node _ _ _ p => p end.
Definition nodeId (n : ProcessedItem) : string := id (fields n).

Inductive ProcessedData : Type :=
| PArray (items : list ProcessedItem)
| PItem (item : ProcessedItem).

(** ** Loops over arrays *)

(** [items.map(f)] where [f] also threads a state (here: the allocator). *)
Definition mapS {A B S : Type} (f : A → S → B * S) : list A → S → list B * S :=
  fix go l s :=
    match l with
    | [] => ([], s)
    | x :: l' =>
        let '(y, s1) := f x s in
        let '(ys, s2) := go l' s1 in
        (y :: ys, s2)
    end.

(** [items.forEach(f)] where [f] updates a captured variable. *)
Definition forEach {A S : Type} (f : A → S → S) : list A → S → S :=
  fix go l s :=
    match l with
    | [] => s
    | x :: l' => go l' (f x s)
    end.

(** [for (...) { if (f(items[i])) { push(items[i].id); return true } } return
    false], the array branch of [walkTreeItems]. *)
Definition walkLoop (f : ProcessedItem → list string → bool * list string)
  : list ProcessedItem → list string → bool * list string :=
  fix go l ids :=
    match l with
    | [] => (false, ids)
    | x :: l' =>
        let '(found, ids1) := f x ids in
        if found then (true, ids1 ++ [nodeId x]) else go l' ids1
    end.

(** First defined result of [f] over an array. *)
Definition findFirst {A B : Type} (f : A → option B) : list A → option B :=
  fix go l :=
    match l with
    | [] => None
    | x :: l' => match f x with Some y => Some y | None => go l' end
    end.

(** ** The model builder *)

(** The body shared by both branches of [processItems]: copy the item with the
    given parent ([newItem], allocated at [next]), then replace the children
    of the copy by their processed versions, whose parent is the copy. *)
Fixpoint processItem (parent : option addr) (item : TreeDataItem) (next : addr)
  : ProcessedItem * addr :=
  match item with
  | Item f cs =>
      let newItem := next in
      match cs with
      | Some l =>
          let '(l', next') := mapS (processItem (Some newItem)) l (S next) in
          (Node newItem f (Some l') parent, next')
      | None => (Node newItem f None parent, S next)
      end
  end.

(** [processItems(data)], starting from a given state of the allocator. *)
Definition processItemsFrom (next : addr) (data : TreeData) : ProcessedData * addr :=
  match data with
  | DataArray items =>
      let '(l, next') := mapS (processItem None) items next in (PArray l, next')
  | DataItem item =>
      let '(n, next') := processItem None item next in (PItem n, next')
  end.

(** [processedData] *)
Definition processItems (data : TreeData) : ProcessedData :=
  fst (processItemsFrom 0 data).

(** [flattenTree], threading [flatData]. *)
Fixpoint flattenItem (n : ProcessedItem) (flatData : gmap string ProcessedItem)
  : gmap string ProcessedItem :=
  match n with
  | Node _ f cs _ =>
      let flatData := <[id f := n]> flatData in
      match cs with
      | Some l => forEach flattenItem l flatData
      | None => flatData
      end
  end.

Definition flattenTree (items : ProcessedData) (flatData : gmap string ProcessedItem)
  : gmap string ProcessedItem :=
  match items with
  | PArray l => forEach flattenItem l flatData
  | PItem n => flattenItem n flatData
  end.

(** [flatNodePointers] *)
Definition flatNodePointers (processedData : ProcessedData) : gmap string ProcessedItem :=
  flattenTree processedData ∅.

(** Dereferencing a [parent] reference: the processed object with a given
    identity ([parent_resolves] below: such a reference never dangles). *)
Fixpoint findAddr (a : addr) (n : ProcessedItem) : option ProcessedItem :=
  match n with
  | Node b _ cs _ =>
      if decide (a = b) then Some n
      else match cs with
           | Some l => findFirst (findAddr a) l
           | None => None
           end
  end.

Definition nodeAt (processedData : ProcessedData) (a : addr) : option ProcessedItem :=
  match processedData with
  | PArray l => findFirst (findAddr a) l
  | PItem n => findAddr a n
  end.

(** ** Component props and state *)

(** Calls made to callbacks supplied by the caller, in the order they are
    made. *)
Inductive Call : Type :=
| SelectChange (item : option ProcessedItem)     (* onSelectChange(item) *)
| ItemClick (handler : nat)                      (* item.onClick() *)
| DocumentDrag (source target : ProcessedItem).  (* onDocumentDrag(source, target) *)

(** [TreeProps].  The two callback props are optional; the booleans record
    whether they are supplied.  An absent [expandAll] is falsy, like [false]. *)
Record TreeProps := mkProps {
  data : TreeData;
  initialSelectedItemId : option string;
  onSelectChange : bool;
  expandAll : bool;
  onDocumentDrag : bool
}.

Record TreeState := mkState {
  selectedItemId : option string;
  expandedItems : list string;
  draggedItem : option ProcessedItem;
  calls : list Call
}.

Definition setSelectedItemId (v : option string) (st : TreeState) : TreeState :=
  mkState v (expandedItems st) (draggedItem st) (calls st).
Definition setExpandedItems (v : list string) (st : TreeState) : TreeState :=
  mkState (selectedItemId st) v (draggedItem st) (calls st).
Definition setDraggedItem (v : option ProcessedItem) (st : TreeState) : TreeState :=
  mkState (selectedItemId st) (expandedItems st) v (calls st).
Definition call (c : Call) (st : TreeState) : TreeState :=
  mkState (selectedItemId st) (expandedItems st) (draggedItem st) (calls st ++ [c]).

(** The state of the first render: [useState(initialSelectedItemId)],
    [useState([])], [useState(null)]. *)
Definition initialState (props : TreeProps) : TreeState :=
  mkState (initialSelectedItemId props) [] None [].

Definition processedData (props : TreeProps) : ProcessedData :=
  processItems (data props).

(** [array.includes(x)] *)
Definition includes (l : list string) (x : string) : bool := bool_decide (x ∈ l).

(** Truthiness of a [string | undefined]: the empty string is falsy. *)
Definition truthy (s : option string) : bool :=
  match s with
  | Some s => negb (bool_decide (s = ""))
  | None => false
  end.

(** ** Expansion and selection *)

Definition handleToggleExpand (itemId : string) (isExpanded : bool) (st : TreeState)
  : TreeState :=
  setExpandedItems
    (if isExpanded then expandedItems st ++ [itemId]
     else filter (λ i, i ≠ itemId) (expandedItems st)) st.

Definition handleSelectChange (props : TreeProps) (item : option ProcessedItem)
    (st : TreeState) : TreeState :=
  let st := setSelectedItemId (nodeId <$> item) st in
  if onSelectChange props then call (SelectChange item) st else st.

(** The [onClick] of the row of a [TreeNode] or [TreeLeaf]. *)
Definition rowClick (props : TreeProps) (item : ProcessedItem) (st : TreeState)
  : TreeState :=
  let st := handleSelectChange props (Some item) st in
  match onClick (fields item) with
  | Some h => call (ItemClick h) st
  | None => st
  end.

(** [syncExpandCollapseState] of the [TreeNode] rendering [item], called by the
    accordion with its new list of open values.  The node-local copy [value]
    is a projection of [expandedItems] and is not part of the state here. *)
Definition syncExpandCollapseState (item : ProcessedItem) (values : list string)
    (st : TreeState) : TreeState :=
  let isExpanded := includes (expandedItems st) (nodeId item) in
  let newIsExpanded := includes values (nodeId item) in
  if bool_decide (newIsExpanded ≠ isExpanded)
  then handleToggleExpand (nodeId item) newIsExpanded st
  else st.

(** ** Keyboard navigation *)

(** [collectNodes], threading [allNodes]. *)
Fixpoint collectItem (expanded : list string) (n : ProcessedItem)
    (allNodes : list ProcessedItem) : list ProcessedItem :=
  match n with
  | Node _ f cs _ =>
      let allNodes := allNodes ++ [n] in
      match cs with
      | Some l =>
          if includes expanded (id f)
          then forEach (collectItem expanded) l allNodes
          else allNodes
      | None => allNodes
      end
  end.

Definition collectNodes (expanded : list string) (items : ProcessedData)
    (allNodes : list ProcessedItem) : list ProcessedItem :=
  match items with
  | PArray l => forEach (collectItem expanded) l allNodes
  | PItem n => collectItem expanded n allNodes
  end.

(** [allNodes.findIndex((node) => node.id === selectedItemId)]; [None] is the
    result [-1]. *)
Definition findIndex (sel : string) (allNodes : list ProcessedItem) : option nat :=
  fst <$> list_find (λ n, nodeId n = sel) allNodes.

Inductive Key : Type := ArrowDown | ArrowUp | ArrowRight | ArrowLeft | OtherKey.

(** The [switch (e.key)] of [handleTreeKeyboardNavigation]. *)
Definition keySwitch (props : TreeProps) (key : Key) (st : TreeState)
    (currentNode : ProcessedItem) (allNodes : list ProcessedItem)
    (currentIndex : nat) : TreeState :=
  match key with
  | ArrowDown =>
      if (Z.of_nat currentIndex <? Z.of_nat (length allNodes) - 1)%Z
      then handleSelectChange props (allNodes !! (currentIndex + 1)) st
      else st
  | ArrowUp =>
      if (0 <? Z.of_nat currentIndex)%Z
      then handleSelectChange props (allNodes !! (currentIndex - 1)) st
      else st
  | ArrowRight =>
      match children currentNode with
      | Some cs =>
          if (0 <? length cs)%nat then
            if negb (includes (expandedItems st) (nodeId currentNode))
            then handleToggleExpand (nodeId currentNode) true st
            else handleSelectChange props (cs !! 0) st
          else st
      | None => st
      end
  | ArrowLeft =>
      if includes (expandedItems st) (nodeId currentNode)
      then handleToggleExpand (nodeId currentNode) false st
      else match parent currentNode with
           | Some p => handleSelectChange props (nodeAt (processedData props) p) st
           | None => st
           end
  | OtherKey => st
  end.

Definition handleTreeKeyboardNavigation (props : TreeProps) (key : Key)
    (st : TreeState) : TreeState :=
  if negb (truthy (selectedItemId st)) then st else
  match selectedItemId st with
  | None => st
  | Some sel =>
      match flatNodePointers (processedData props) !! sel with
      | None => st
      | Some currentNode =>
          let allNodes := collectNodes (expandedItems st) (processedData props) [] in
          match findIndex sel allNodes with
          | None => st
          | Some currentIndex =>
              keySwitch props key st currentNode allNodes currentIndex
          end
      end
  end.

(** ** Drag and drop *)

Definition handleDragStart (item : ProcessedItem) (st : TreeState) : TreeState :=
  setDraggedItem (Some item) st.

(** [onDragStart] of a row: the gesture is cancelled unless [item.draggable]
    is true. *)
Definition onDragStart (item : ProcessedItem) (st : TreeState) : TreeState :=
  match draggable (fields item) with
  | Some true => handleDragStart item st
  | _ => st
  end.

Definition handleDrop (props : TreeProps) (targetItem : ProcessedItem)
    (st : TreeState) : TreeState :=
  let st :=
    match draggedItem st with
    | Some source =>
        if onDocumentDrag props && negb (bool_decide (nodeId source = nodeId targetItem))
        then call (DocumentDrag source targetItem) st
        else st
    | None => st
    end in
  setDraggedItem None st.

(** ** The mount effect *)

(** [walkTreeItems], threading [ids]. *)
Fixpoint walkItem (targetId : string) (n : ProcessedItem) (ids : list string)
  : bool * list string :=
  match n with
  | Node _ f cs _ =>
      if bool_decide (id f = targetId) then (true, ids)
      else match cs with
           | Some l =>
               let '(found, ids1) := walkLoop (walkItem targetId) l ids in
               if found then (true, ids1 ++ [id f]) else (false, ids1)
           | None => (false, ids)
           end
  end.

Definition walkTreeItems (items : ProcessedData) (targetId : string)
    (ids : list string) : bool * list string :=
  match items with
  | PArray l => walkLoop (walkItem targetId) l ids
  | PItem n => walkItem targetId n ids
  end.

Definition mountEffect (props : TreeProps) (st : TreeState) : TreeState :=
  if negb (truthy (initialSelectedItemId props)) || expandAll props then st else
  match initialSelectedItemId props with
  | None => st
  | Some target =>
      let ids := snd (walkTreeItems (processedData props) target []) in
      if (0 <? length ids)%nat then setExpandedItems ids st else st
  end.

(** The state after mounting. *)
Definition mount (props : TreeProps) : TreeState :=
  mountEffect props (initialState props).

(** ** Events *)

Inductive Action : Type :=
| RowClick (item : ProcessedItem)
| AccordionChange (item : ProcessedItem) (values : list string)
| KeyDown (key : Key)
| DragStart (item : ProcessedItem)
| DropOn (targetItem : ProcessedItem).

Definition step (props : TreeProps) (a : Action) (st : TreeState) : TreeState :=
  match a with
  | RowClick item => rowClick props item st
  | AccordionChange item values => syncExpandCollapseState item values st
  | KeyDown key => handleTreeKeyboardNavigation props key st
  | DragStart item => onDragStart item st
  | DropOn targetItem => handleDrop props targetItem st
  end.

(** The selection after each key of a sequence of key events. *)
Fixpoint visits (props : TreeProps) (keys : list Key) (st : TreeState)
  : list (option string) :=
  match keys with
  | [] => []
  | key :: keys' =>
      let st' := handleTreeKeyboardNavigation props key st in
      selectedItemId st' :: visits props keys' st'
  end.

(** ** Sample data *)

Definition leaf (i : string) : TreeDataItem :=
  Item (mkFields i i None None None None None None None) None.
Definition branch (i : string) (cs : list TreeDataItem) : TreeDataItem :=
  Item (mkFields i i None None None None None None None) (Some cs).

(** A leaf with an [onClick] handler. *)
Definition clickable (i : string) (h : nat) : TreeDataItem :=
  Item (mkFields i i None None None None (Some h) None None) None.

(** The tree [A{B{D,E},C}]. *)
Definition treeA : TreeDataItem :=
  branch "A" [branch "B" [leaf "D"; leaf "E"]; leaf "C"].

Definition propsOf (d : TreeData) (init : option string) : TreeProps :=
  mkProps d init true false true.

(** ** Induction over nested items *)

Section TreeDataItem_ind.
Variable P : TreeDataItem → Prop.
Hypothesis Pleaf : ∀ f, P (Item f None).
Hypothesis Pbranch : ∀ f l, Forall P l → P (Item f (Some l)).

Fixpoint TreeDataItem_ind (i : TreeDataItem) : P i :=
    match i with
    | Item f None => Pleaf f
    | Item f (Some l) =>
        Pbranch f l
          ((fix go (l : list TreeDataItem) : Forall P l :=
              match l with
              | [] => Forall_nil_2 P
              | x :: l' => Forall_cons_2 P x l' (TreeDataItem_ind x) (go l')
              end) l)
    end.
End TreeDataItem_ind.

Section ProcessedItem_ind.
Variable P : ProcessedItem → Prop.
Hypothesis Pleaf : ∀ a f p, P (Node a f None p).
Hypothesis Pbranch : ∀ a f l p, Forall P l → P (Node a f (Some l) p).

Fixpoint ProcessedItem_ind (n : ProcessedItem) : P n :=
    match n with
    | Node a f None p => Pleaf a f p
    | Node a f (Some l) p =>
        Pbranch a f l p
          ((fix go (l : list ProcessedItem) : Forall P l :=
              match l with
              | [] => Forall_nil_2 P
              | x :: l' => Forall_cons_2 P x l' (ProcessedItem_ind x) (go l')
              end) l)
    end.
End ProcessedItem_ind.

(** ** Views used in the statements *)

(** The items of a subtree, in depth-first order, the root first. *)
Fixpoint subItems (i : TreeDataItem) : list TreeDataItem :=
  i :: match i with
       | Item _ (Some l) => flat_map subItems l
       | Item _ None => []
       end.

Definition itemId (i : TreeDataItem) : string := id (itemFields i).

Definition dataRoots (d : TreeData) : list TreeDataItem :=
  match d with DataArray l => l | DataItem i => [i] end.
Definition dataItems (d : TreeData) : list TreeDataItem :=
  flat_map subItems (dataRoots d).
Definition dataIds (d : TreeData) : list string := itemId <$> dataItems d.

(** The processed objects of a subtree, in depth-first order, the root
    first. *)
Fixpoint nodes (n : ProcessedItem) : list ProcessedItem :=
  n :: match n with
       | Node _ _ (Some l) _ => flat_map nodes l
       | Node _ _ None _ => []
       end.

Definition descendants (n : ProcessedItem) : list ProcessedItem :=
  match children n with Some l => flat_map nodes l | None => [] end.

Definition roots (pd : ProcessedData) : list ProcessedItem :=
  match pd with PArray l => l | PItem n => [n] end.
Definition nodesOf (pd : ProcessedData) : list ProcessedItem :=
  flat_map nodes (roots pd).

(** Forgetting identities and parent references. *)
Fixpoint eraseItem (n : ProcessedItem) : TreeDataItem :=
  match n with
  | Node _ f cs _ =>
      Item f (match cs with Some l => Some (eraseItem <$> l) | None => None end)
  end.

Definition eraseData (pd : ProcessedData) : TreeData :=
  match pd with
  | PArray l => DataArray (eraseItem <$> l)
  | PItem n => DataItem (eraseItem n)
  end.

(** The rows a user can see: a subtree is listed only below an expanded
    parent. *)
Fixpoint visibleItem (expanded : list string) (n : ProcessedItem)
  : list ProcessedItem :=
  n :: match n with
       | Node _ f (Some l) _ =>
           if includes expanded (id f) then flat_map (visibleItem expanded) l else []
       | Node _ _ None _ => []
       end.

Definition visible (expanded : list string) (pd : ProcessedData) : list ProcessedItem :=
  flat_map (visibleItem expanded) (roots pd).

(** The ids on the path from [n] down to the first node, in depth-first
    order, whose id is [targetId], both ends included. *)
Fixpoint pathItem (targetId : string) (n : ProcessedItem) : option (list string) :=
  match n with
  | Node _ f cs _ =>
      if bool_decide (id f = targetId) then Some [id f]
      else match cs with
           | Some l => cons (id f) <$> findFirst (pathItem targetId) l
           | None => None
           end
  end.

Definition pathTo (pd : ProcessedData) (targetId : string) : option (list string) :=
  findFirst (pathItem targetId) (roots pd).

(** What the array branch of [walkTreeItems] has pushed when it returns from
    the root of a path: the target once, every node above it twice. *)
Fixpoint trail (p : list string) : list string :=
  match p with
  | [] => []
  | x :: rest =>
      match rest with
      | [] => [x]
      | _ :: _ => trail rest ++ [x; x]
      end
  end.

(** The same for the single-item branch, which does not push its own
    argument when it is the target. *)
Definition trailItem (p : list string) : list string :=
  match p with
  | [] => []
  | x :: rest =>
      match rest with
      | [] => []
      | _ :: _ => trail rest ++ [x]
      end
  end.

(** The result of a walk that found [path] (or nothing), given what it
    pushes for a path. *)
Definition walked (path : option (list string))
    (tr : list string → list string) (ids : list string) : bool * list string :=
  match path with
  | Some p => (true, ids ++ tr p)
  | None => (false, ids)
  end.

(** [t] is the id of a node of the subtree [n]. *)
Definition hasId (t : string) (n : ProcessedItem) : Prop :=
  ∃ d, d ∈ nodes n ∧ nodeId d = t.

(** [x] is the id of a node of the subtree [n] strictly above a node with
    id [t]. *)
Definition above (t : string) (n : ProcessedItem) (x : string) : Prop :=
  ∃ a d, a ∈ nodes n ∧ nodeId a = x ∧ d ∈ descendants a ∧ nodeId d = t.

Definition itemDescendants (i : TreeDataItem) : list TreeDataItem :=
  match i with
  | Item _ (Some l) => flat_map subItems l
  | Item _ None => []
  end.

(** [a] is the id of an item that has an item with id [t] strictly below
    it. *)
Definition properAncestorId (d : TreeData) (a t : string) : Prop :=
  ∃ i j, i ∈ dataItems d ∧ itemId i = a ∧ j ∈ itemDescendants i ∧ itemId j = t.

(** The nesting of the input as pairs (id, id of the item it is nested
    under). *)
Fixpoint nesting (par : option string) (i : TreeDataItem)
  : list (string * option string) :=
  match i with
  | Item f cs =>
      (id f, par) ::
      match cs with
      | Some l => flat_map (nesting (Some (id f))) l
      | None => []
      end
  end.

Definition dataNesting (d : TreeData) : list (string * option string) :=
  flat_map (nesting None) (dataRoots d).

(** The parent links of the processed tree as pairs (id, id of the object the
    [parent] reference points to). *)
Definition parentId (pd : ProcessedData) (n : ProcessedItem) : option string :=
  nodeId <$> (parent n ≫= nodeAt pd).

Definition parentLinks (pd : ProcessedData) : list (string * option string) :=
  (λ n, (nodeId n, parentId pd n)) <$> nodesOf pd.

(** The flat index built by inserting a listing of nodes from left to right. *)
Definition index (m : gmap string ProcessedItem) (l : list ProcessedItem)
  : gmap string ProcessedItem :=
  foldl (λ m x, <[nodeId x := x]> m) m l.

#[local] Unset Elimination Schemes.

(** Every [parent] reference below [n] holds the identity of the object whose
    [children] array the referring object is in; [n] itself refers to [p]. *)
Inductive Linked : option addr → ProcessedItem → Prop :=
| Linked_leaf a f p : Linked p (Node a f None p)
| Linked_branch a f l p :
    Forall (Linked (Some a)) l → Linked p (Node a f (Some l) p).

#[local] Set Elimination Schemes.

Definition itemSize (i : TreeDataItem) : nat := length (subItems i).

Definition processed (par : option addr) (i : TreeDataItem) (next : addr)
    (r : ProcessedItem * addr) : Prop :=
  eraseItem r.1 = i ∧
  address <$> nodes r.1 = seq next (itemSize i) ∧
  r.2 = next + itemSize i ∧
  Linked par r.1.


(** ** Row-level drag handlers and the container below the tree *)

(** The condition of [onDragOver] of a row ([TreeNode] and [TreeLeaf] have the
    same handler): [item.droppable !== false && draggedItem && draggedItem.id
    !== item.id].  When it holds the handler calls [e.preventDefault()], which
    is what lets the browser deliver a drop to the row. *)
Definition dropAllowed (item : ProcessedItem) (st : TreeState) : bool :=
  negb (bool_decide (droppable (fields item) = Some false)) &&
  match draggedItem st with
  | Some source => negb (bool_decide (nodeId source = nodeId item))
  | None => false
  end.

(** [onDragOver] on the row-local state [isDragOver]. *)
Definition onDragOver (item : ProcessedItem) (st : TreeState) (isDragOver : bool)
  : bool :=
  if dropAllowed item st then true else isDragOver.

(** [onDragLeave] on the row-local state [isDragOver]. *)
Definition onDragLeave (isDragOver : bool) : bool := false.

(** [onDrop] of a row: [setIsDragOver(false); handleDrop?.(item)]; the result
    is the new [isDragOver] and the new component state. *)
Definition onDrop (props : TreeProps) (item : ProcessedItem) (st : TreeState)
  : bool * TreeState :=
  (false, handleDrop props item st).

(** The object literal [{ id: '', name: 'parent_div' }] passed to [handleDrop]
    by the [div] below the tree; [a] is the identity of this fresh object. *)
Definition parentDiv (a : addr) : ProcessedItem :=
  Node a (mkFields "" "parent_div" None None None None None None None) None None.

(** [onDrop] of the [div] below the tree. *)
Definition containerDrop (props : TreeProps) (a : addr) (st : TreeState) : TreeState :=
  handleDrop props (parentDiv a) st.

(** ** Further views used in the statements *)

(** The selected id is the id of a row that is on screen. *)
Definition selectionVisible (props : TreeProps) (st : TreeState) : Prop :=
  ∃ n, n ∈ visible (expandedItems st) (processedData props) ∧
       selectedItemId st = Some (nodeId n).

(** Number of occurrences of an id in a list of ids. *)
Definition occurrences (x : string) (l : list string) : nat :=
  length (filter (λ y, y = x) l).

(** The item passed to the most recent [onSelectChange] call of a trace
    ([None] when there was no call, or when the last call passed
    [undefined]). *)
Definition lastNotified (trace : list Call) : option ProcessedItem :=
  foldl (λ acc c, match c with SelectChange item => item | _ => acc end) None trace.

(** The state after a sequence of events. *)
Definition run (props : TreeProps) (actions : list Action) (st : TreeState)
  : TreeState :=
  foldl (λ s a, step props a s) st actions.
(** ** Basic facts *)

Lemma nodes_unfold n : nodes n = n :: descendants n.
Proof. by destruct n as [a f [l|] p]. Qed.

(** A loop whose body appends a block to the accumulator appends the
    concatenation of the blocks. *)
Lemma forEach_append {A B : Type} (f : A → list B → list B) (g : A → list B) l :
  Forall (λ x, ∀ acc, f x acc = acc ++ g x) l →
  ∀ acc, forEach f l acc = acc ++ flat_map g l.
Proof.
  induction 1 as [|x l Hx _ IH]; intros acc; simpl.
  - by rewrite app_nil_r.
  - rewrite Hx, IH. by rewrite <- app_assoc.
Qed.

Lemma collectItem_visible expanded n :
  ∀ acc, collectItem expanded n acc = acc ++ visibleItem expanded n.
Proof.
  induction n as [a f p|a f l p IH] using ProcessedItem_ind; intros acc; simpl.
  - done.
  - destruct (includes expanded (id f)); [|done].
    rewrite (forEach_append _ (visibleItem expanded) l IH).
    by rewrite <- app_assoc.
Qed.

Lemma collectNodes_visible expanded pd :
  collectNodes expanded pd [] = visible expanded pd.
Proof.
  destruct pd as [l|n]; unfold visible; simpl.
  - rewrite (forEach_append _ (visibleItem expanded)); [done|].
    apply Forall_forall. intros x _ acc. apply collectItem_visible.
  - rewrite collectItem_visible. by rewrite app_nil_r.
Qed.

Lemma elem_of_flat_map {A B : Type} (g : A → list B) (l : list A) (x : B) :
  x ∈ flat_map g l ↔ ∃ y, y ∈ l ∧ x ∈ g y.
Proof.
  split.
  - intros H. apply list_elem_of_In, in_flat_map in H as (y & Hy & Hx).
    exists y. split; by apply list_elem_of_In.
  - intros (y & Hy & Hx). apply list_elem_of_In, in_flat_map.
    exists y. split; by apply list_elem_of_In.
Qed.

Lemma visibleItem_subseteq expanded n : visibleItem expanded n ⊆ nodes n.
Proof.
  induction n as [a f p|a f l p IH] using ProcessedItem_ind; simpl.
  - done.
  - intros x Hx. apply elem_of_cons in Hx as [->|Hx]; [left|right].
    destruct (includes expanded (id f)); [|by apply elem_of_nil in Hx].
    apply elem_of_flat_map in Hx as (c & Hc & Hx).
    apply elem_of_flat_map. exists c. split; [done|].
    rewrite Forall_forall in IH. by apply (IH c).
Qed.

Lemma visible_subseteq expanded pd : visible expanded pd ⊆ nodesOf pd.
Proof.
  intros x Hx. apply elem_of_flat_map in Hx as (c & Hc & Hx).
  apply elem_of_flat_map. exists c. split; [done|].
  by apply (visibleItem_subseteq expanded).
Qed.

(** ** The flat index as a fold over the depth-first listing *)

Lemma forEach_foldl {A B S : Type} (f : A → S → S) (h : S → B → S)
    (g : A → list B) l :
  Forall (λ x, ∀ s, f x s = foldl h s (g x)) l →
  ∀ s, forEach f l s = foldl h s (flat_map g l).
Proof.
  induction 1 as [|x l Hx _ IH]; intros s; simpl; [done|].
  by rewrite Hx, IH, foldl_app.
Qed.

Lemma flattenItem_nodes n : ∀ m, flattenItem n m = index m (nodes n).
Proof.
  induction n as [a f p|a f l p IH] using ProcessedItem_ind; intros m; simpl.
  - done.
  - unfold index in *. by rewrite (forEach_foldl _ _ nodes l IH).
Qed.

Lemma flatNodePointers_nodes pd : flatNodePointers pd = index ∅ (nodesOf pd).
Proof.
  unfold flatNodePointers, nodesOf. destruct pd as [l|n]; simpl.
  - unfold index. apply forEach_foldl, Forall_forall.
    intros x _ s. apply flattenItem_nodes.
  - by rewrite app_nil_r, flattenItem_nodes.
Qed.

Lemma index_lookup_notin l : ∀ m k,
  k ∉ (nodeId <$> l) → index m l !! k = m !! k.
Proof.
  induction l as [|x l IH]; intros m k Hk; simpl in *; [done|].
  apply not_elem_of_cons in Hk as [Hne Hk].
  unfold index in *; simpl. rewrite IH by done. by rewrite lookup_insert_ne.
Qed.

Lemma index_lookup_in l : ∀ m x,
  NoDup (nodeId <$> l) → x ∈ l → index m l !! nodeId x = Some x.
Proof.
  induction l as [|y l IH]; intros m x Hnd Hx; simpl in *.
  - by apply elem_of_nil in Hx.
  - apply NoDup_cons in Hnd as [Hy Hnd].
    apply elem_of_cons in Hx as [->|Hx].
    + change (index (<[nodeId y := y]> m) l !! nodeId y = Some y).
      rewrite index_lookup_notin by done. apply lookup_insert_eq.
    + by apply IH.
Qed.

Lemma index_lookup_Some l : ∀ m k x,
  index m l !! k = Some x → (x ∈ l ∧ nodeId x = k) ∨ m !! k = Some x.
Proof.
  induction l as [|y l IH]; intros m k x H; simpl in *; [by right|].
  apply IH in H as [[Hx Hk]|H].
  - left. split; [by right|done].
  - destruct (decide (nodeId y = k)) as [<-|Hne].
    + rewrite lookup_insert_eq in H. injection H as <-. left. split; [left|done].
    + rewrite lookup_insert_ne in H by done. by right.
Qed.

Lemma dom_index l : ∀ m,
  dom (index m l) = dom m ∪ list_to_set (nodeId <$> l).
Proof.
  induction l as [|y l IH]; intros m; simpl.
  - by rewrite (right_id_L ∅ (∪)).
  - change (dom (index (<[nodeId y := y]> m) l) = dom m ∪ ({[nodeId y]} ∪ list_to_set (nodeId <$> l))).
    rewrite IH, dom_insert_L.
    by rewrite (comm_L (∪) {[nodeId y]} (dom m)), (assoc_L (∪)).
Qed.

(** ** Facts about the model builder *)

Lemma mapS_processed (f : TreeDataItem → addr → ProcessedItem * addr) par l :
  Forall (λ i, ∀ next, processed par i next (f i next)) l →
  ∀ next, let r := mapS f l next in
    (eraseItem <$> r.1) = l ∧
    (address <$> (flat_map nodes r.1)) = seq next (length (flat_map subItems l)) ∧
    r.2 = next + length (flat_map subItems l) ∧
    Forall (Linked par) r.1.
Proof.
  induction 1 as [|i l Hi _ IH]; intros next; csimpl.
  - split_and!; [done|done|lia|constructor].
  - specialize (Hi next). destruct (f i next) as [y s1].
    destruct Hi as (He & Ha & Hn & Hl); csimpl in *.
    specialize (IH s1). destruct (mapS f l s1) as [ys s2].
    destruct IH as (He' & Ha' & Hn' & Hl'); csimpl in *.
    unfold itemSize in *.
    split_and!.
    + by rewrite He, He'.
    + rewrite fmap_app, length_app, seq_app, Ha, Ha'. by subst s1.
    + rewrite length_app. lia.
    + by constructor.
Qed.

Lemma processItem_processed i : ∀ par next,
  processed par i next (processItem par i next).
Proof.
  induction i as [f|f l IH] using TreeDataItem_ind; intros par next.
  - unfold processed, itemSize; csimpl. split_and!; [done|done|lia|constructor].
  - csimpl.
    assert (Forall (λ i, ∀ n, processed (Some next) i n (processItem (Some next) i n)) l) as H.
    { eapply Forall_impl; [exact IH|]. intros i Hi n. apply Hi. }
    apply (λ H, mapS_processed _ _ _ H (S next)) in H. csimpl in H.
    destruct (mapS (processItem (Some next)) l (S next)) as [l' next'].
    destruct H as (He & Ha & Hn & Hl); csimpl in *.
    unfold processed, itemSize; csimpl. split_and!.
    + by rewrite He.
    + by rewrite Ha.
    + lia.
    + by constructor.
Qed.

Lemma processItemsFrom_spec data next :
  let pd := (processItemsFrom next data).1 in
  eraseData pd = data ∧
  (address <$> nodesOf pd) = seq next (length (dataItems data)) ∧
  Forall (Linked None) (roots pd).
Proof.
  destruct data as [l|i]; csimpl.
  - pose proof (mapS_processed (processItem None) None l) as H.
    specialize (H ltac:(apply Forall_forall; intros; apply processItem_processed) next).
    csimpl in H. destruct (mapS (processItem None) l next) as [l' n'].
    destruct H as (He & Ha & _ & Hl); csimpl in *.
    split_and!; [by rewrite He|done|done].
  - pose proof (processItem_processed i None next) as H.
    destruct (processItem None i next) as [n n'].
    destruct H as (He & Ha & _ & Hl); csimpl in *.
    unfold nodesOf, dataItems; csimpl. rewrite !app_nil_r.
    split_and!; [by rewrite He|done|by constructor].
Qed.

Lemma NoDup_addresses data next :
  NoDup (address <$> (nodesOf (processItemsFrom next data).1)).
Proof.
  destruct (processItemsFrom_spec data next) as (_ & -> & _). apply NoDup_seq.
Qed.

Lemma subItems_erase n : subItems (eraseItem n) = (eraseItem <$> nodes n).
Proof.
  induction n as [a f p|a f l p IH] using ProcessedItem_ind; csimpl; [done|].
  f_equal. induction IH as [|x l Hx _ IHl]; csimpl; [done|].
  by rewrite fmap_app, Hx, IHl.
Qed.

Lemma dataItems_erase pd : dataItems (eraseData pd) = (eraseItem <$> nodesOf pd).
Proof.
  destruct pd as [l|n]; unfold dataItems, nodesOf; csimpl.
  - induction l as [|x l IH]; csimpl; [done|].
    by rewrite fmap_app, subItems_erase, IH.
  - by rewrite !app_nil_r, subItems_erase.
Qed.

Lemma itemId_erase n : itemId (eraseItem n) = nodeId n.
Proof. by destruct n. Qed.

Lemma dataIds_erase pd : dataIds (eraseData pd) = (nodeId <$> nodesOf pd).
Proof.
  unfold dataIds. rewrite dataItems_erase, <- list_fmap_compose.
  apply list_fmap_ext. intros i n _. apply itemId_erase.
Qed.

Lemma processItems_ids data next :
  (nodeId <$> (nodesOf (processItemsFrom next data).1)) = dataIds data.
Proof.
  rewrite <- dataIds_erase.
  by destruct (processItemsFrom_spec data next) as (-> & _ & _).
Qed.

(** *** Dereferencing parent references *)

Lemma findFirst_notin (a : addr) l :
  Forall (λ n, a ∉ (address <$> nodes n) → findAddr a n = None) l →
  a ∉ (address <$> (flat_map nodes l)) → findFirst (findAddr a) l = None.
Proof.
  induction 1 as [|c l Hc _ IH]; csimpl; intros Ha; [done|].
  rewrite fmap_app in Ha. apply not_elem_of_app in Ha as [Ha1 Ha2].
  rewrite Hc by done. by apply IH.
Qed.

Lemma findAddr_notin (a : addr) n :
  a ∉ (address <$> nodes n) → findAddr a n = None.
Proof.
  induction n as [b f p|b f l p IH] using ProcessedItem_ind; csimpl; intros Ha;
    apply not_elem_of_cons in Ha as [Hne Ha]; rewrite decide_False by done.
  - done.
  - by apply findFirst_notin.
Qed.

Lemma findFirst_in l x :
  Forall (λ n, NoDup (address <$> nodes n) → x ∈ nodes n →
               findAddr (address x) n = Some x) l →
  NoDup (address <$> (flat_map nodes l)) → x ∈ flat_map nodes l →
  findFirst (findAddr (address x)) l = Some x.
Proof.
  induction 1 as [|c l Hc _ IH]; csimpl; intros Hnd Hx.
  - by apply elem_of_nil in Hx.
  - rewrite fmap_app in Hnd. apply NoDup_app in Hnd as (Hnd1 & Hdisj & Hnd2).
    apply elem_of_app in Hx as [Hx|Hx].
    + by rewrite Hc.
    + rewrite findAddr_notin; [by apply IH|].
      intros Hin. apply (Hdisj _ Hin). apply list_elem_of_fmap. by exists x.
Qed.

Lemma findAddr_in n x :
  NoDup (address <$> nodes n) → x ∈ nodes n → findAddr (address x) n = Some x.
Proof.
  induction n as [b f p|b f l p IH] using ProcessedItem_ind; csimpl; intros Hnd Hx;
    apply NoDup_cons in Hnd as [Hb Hnd];
    apply elem_of_cons in Hx as [->|Hx]; csimpl.
  - by rewrite decide_True.
  - by apply elem_of_nil in Hx.
  - by rewrite decide_True.
  - rewrite decide_False.
    + by apply findFirst_in.
    + intros Heq. apply Hb. rewrite <- Heq. apply list_elem_of_fmap. by exists x.
Qed.

Lemma nodeAt_in pd x :
  NoDup (address <$> nodesOf pd) → x ∈ nodesOf pd →
  nodeAt pd (address x) = Some x.
Proof.
  destruct pd as [l|n]; unfold nodesOf; csimpl.
  - apply findFirst_in, Forall_forall. intros c _. apply findAddr_in.
  - rewrite app_nil_r. apply findAddr_in.
Qed.

(** *** Parent references follow the nesting *)

Lemma Linked_parent par n : Linked par n → parent n = par.
Proof. by inversion 1. Qed.

Lemma Linked_children par n cs :
  Linked par n → children n = Some cs → Forall (Linked (Some (address n))) cs.
Proof. inversion 1; csimpl; intros [= <-]; done. Qed.

Lemma Linked_nodes n : ∀ par x,
  Linked par n → x ∈ nodes n → ∃ q, Linked q x.
Proof.
  induction n as [b f p|b f l p IH] using ProcessedItem_ind; csimpl;
    intros par x Hl Hx; apply elem_of_cons in Hx as [->|Hx]; eauto.
  - by apply elem_of_nil in Hx.
  - apply elem_of_flat_map in Hx as (c & Hc & Hx).
    apply (Linked_children _ _ l) in Hl; [|done].
    rewrite Forall_forall in IH, Hl. eapply IH; eauto.
Qed.

Lemma child_parent pd p cs c :
  Forall (Linked None) (roots pd) → p ∈ nodesOf pd →
  children p = Some cs → c ∈ cs → parent c = Some (address p).
Proof.
  intros Hl Hp Hcs Hc.
  apply elem_of_flat_map in Hp as (r & Hr & Hp).
  rewrite Forall_forall in Hl.
  destruct (Linked_nodes r None p (Hl r Hr) Hp) as [q Hq].
  apply (Linked_children _ _ cs) in Hq; [|done].
  rewrite Forall_forall in Hq. eapply Linked_parent; eauto.
Qed.

(** A node of a subtree is its root or a child of one of its nodes. *)
Lemma nodes_root_or_child n x :
  x ∈ nodes n →
  x = n ∨ ∃ p cs, p ∈ nodes n ∧ children p = Some cs ∧ x ∈ cs.
Proof.
  induction n as [b f p|b f l p IH] using ProcessedItem_ind; csimpl;
    intros Hx; apply elem_of_cons in Hx as [->|Hx]; eauto.
  - by apply elem_of_nil in Hx.
  - right. apply elem_of_flat_map in Hx as (c & Hc & Hx).
    rewrite Forall_forall in IH. destruct (IH c Hc Hx) as [->|(q & cs & Hq & Hcs & Hxc)].
    + exists (Node b f (Some l) p), l. split_and!; [left|done|done].
    + exists q, cs. split_and!; [right|done|done].
      apply elem_of_flat_map. eauto.
Qed.

Lemma nodesOf_root_or_child pd x :
  x ∈ nodesOf pd →
  x ∈ roots pd ∨ ∃ p cs, p ∈ nodesOf pd ∧ children p = Some cs ∧ x ∈ cs.
Proof.
  intros Hx. apply elem_of_flat_map in Hx as (r & Hr & Hx).
  destruct (nodes_root_or_child r x Hx) as [->|(q & cs & Hq & Hcs & Hxc)]; [by left|].
  right. exists q, cs. split_and!; [|done|done]. apply elem_of_flat_map. eauto.
Qed.

Lemma child_in_nodes n cs c :
  children n = Some cs → c ∈ cs → c ∈ nodes n.
Proof.
  destruct n as [b f [l|] p]; csimpl; intros [= <-] Hc.
  right. apply elem_of_flat_map. exists c. split; [done|].
  rewrite nodes_unfold. left.
Qed.

Lemma nodes_trans n m x : m ∈ nodes n → x ∈ nodes m → x ∈ nodes n.
Proof.
  revert m x. induction n as [b f p|b f l p IH] using ProcessedItem_ind; csimpl;
    intros m x Hm Hx; apply elem_of_cons in Hm as [->|Hm]; try done.
  - by apply elem_of_nil in Hm.
  - right. apply elem_of_flat_map in Hm as (c & Hc & Hm).
    apply elem_of_flat_map. exists c. split; [done|].
    rewrite Forall_forall in IH. eapply IH; eauto.
Qed.

(** ** The model builder (C7, C8) *)

(** C7: for input with unique ids, given as an array of roots or as a single
    root, the builder returns a copy of the input (forgetting identities and
    parent references gives the input back) in which every root has no parent
    and every child refers to the processed node whose children array it is
    in, and the flat index has exactly the ids of the input as keys, each
    mapped to the processed node with that id. *)
Theorem processItems_model data :
  NoDup (dataIds data) →
  let pd := processItems data in
  let flat := flatNodePointers pd in
  eraseData pd = data ∧
  (∀ r, r ∈ roots pd → parent r = None) ∧
  (∀ c, c ∈ nodesOf pd →
     c ∈ roots pd ∨ ∃ p cs, p ∈ nodesOf pd ∧ children p = Some cs ∧ c ∈ cs) ∧
  (∀ p cs c, p ∈ nodesOf pd → children p = Some cs → c ∈ cs →
     parent c = Some (address p) ∧ nodeAt pd (address p) = Some p) ∧
  dom flat = list_to_set (dataIds data) ∧
  (∀ n, n ∈ nodesOf pd → flat !! nodeId n = Some n) ∧
  (∀ k n, flat !! k = Some n → n ∈ nodesOf pd ∧ nodeId n = k).
Proof.
  intros Hnd pd flat. subst flat. unfold pd, processItems.
  destruct (processItemsFrom_spec data 0) as (He & Ha & Hl).
  pose proof (NoDup_addresses data 0) as Hna.
  pose proof (processItems_ids data 0) as Hids.
  set (q := (processItemsFrom 0 data).1) in *.
  rewrite flatNodePointers_nodes.
  split_and!.
  - done.
  - intros r Hr. rewrite Forall_forall in Hl. by eapply Linked_parent, Hl.
  - apply nodesOf_root_or_child.
  - intros p cs c Hp Hcs Hc. split.
    + by eapply child_parent.
    + by apply nodeAt_in.
  - rewrite dom_index, dom_empty_L, Hids. by rewrite (left_id_L ∅ (∪)).
  - intros n Hn. apply index_lookup_in; [by rewrite Hids|done].
  - intros k n H. by apply index_lookup_Some in H as [?|?].
Qed.

Lemma processItems_model_witness :
  let data := DataArray [treeA] in
  let pd := processItems data in
  eraseData pd = data ∧
  dom (flatNodePointers pd) = list_to_set (dataIds data) ∧
  (∀ n, n ∈ nodesOf pd → flatNodePointers pd !! nodeId n = Some n).
Proof.
  intros data pd.
  assert (NoDup (dataIds data)) as Hnd
    by (apply (bool_decide_unpack _); vm_compute; exact I).
  destruct (processItems_model data Hnd) as (He & _ & _ & _ & Hdom & Hlook & _).
  split_and!; [exact He|exact Hdom|exact Hlook].
Defined.

(** ** The mount-time walk (C1) *)

Lemma findFirst_Some {A B : Type} (f : A → option B) l y :
  findFirst f l = Some y →
  ∃ l1 c l2, l = l1 ++ c :: l2 ∧ f c = Some y ∧ Forall (λ x, f x = None) l1.
Proof.
  induction l as [|x l IH]; simpl; [done|].
  destruct (f x) as [z|] eqn:Hx.
  - intros [= ->]. exists [], x, l. by split_and!.
  - intros H. destruct (IH H) as (l1 & c & l2 & -> & Hc & Hl1).
    exists (x :: l1), c, l2. split_and!; [done|done|by constructor].
Qed.

Lemma findFirst_None {A B : Type} (f : A → option B) l :
  findFirst f l = None ↔ Forall (λ x, f x = None) l.
Proof.
  induction l as [|x l IH]; simpl; [by split; [constructor|]|].
  destruct (f x) as [z|] eqn:Hx.
  - split; [done|]. intros H. apply Forall_cons in H as [H _]. congruence.
  - rewrite IH. split; [by constructor|]. intros H. by apply Forall_cons in H as [_ H].
Qed.

Lemma pathItem_head t n p : pathItem t n = Some p → ∃ rest, p = nodeId n :: rest.
Proof.
  destruct n as [a f cs q]; simpl. case_bool_decide.
  - intros [= <-]. eauto.
  - destruct cs as [l|]; [|done].
    destruct (findFirst (pathItem t) l); simpl; [|done]. intros [= <-]. eauto.
Qed.

Lemma trail_trailItem x rest : trail (x :: rest) = trailItem (x :: rest) ++ [x].
Proof. destruct rest; simpl; [done|]. by rewrite <- app_assoc. Qed.

Lemma elem_of_trail p x : x ∈ trail p ↔ x ∈ p.
Proof.
  induction p as [|y [|z rest] IH].
  - done.
  - done.
  - change (trail (y :: z :: rest)) with (trail (z :: rest) ++ [y; y]).
    rewrite elem_of_app, IH, !elem_of_cons, elem_of_nil. tauto.
Qed.

Lemma elem_of_trailItem y z rest x :
  x ∈ trailItem (y :: z :: rest) ↔ x ∈ y :: z :: rest.
Proof.
  change (trailItem (y :: z :: rest)) with (trail (z :: rest) ++ [y]).
  rewrite elem_of_app, elem_of_trail, !elem_of_cons, elem_of_nil. tauto.
Qed.

Lemma walkLoop_path t l :
  Forall (λ n, ∀ ids, walkItem t n ids = walked (pathItem t n) trailItem ids) l →
  ∀ ids, walkLoop (walkItem t) l ids = walked (findFirst (pathItem t) l) trail ids.
Proof.
  induction 1 as [|n l Hn _ IH]; intros ids; simpl; [done|].
  rewrite Hn. destruct (pathItem t n) as [p|] eqn:Hp; simpl.
  - destruct (pathItem_head _ _ _ Hp) as [rest ->].
    by rewrite trail_trailItem, app_assoc.
  - apply IH.
Qed.

Lemma walkItem_path t n : ∀ ids,
  walkItem t n ids = walked (pathItem t n) trailItem ids.
Proof.
  induction n as [a f q|a f l q IH] using ProcessedItem_ind; intros ids; simpl.
  - case_bool_decide; simpl; [by rewrite app_nil_r|done].
  - case_bool_decide; simpl; [by rewrite app_nil_r|].
    rewrite (walkLoop_path t l IH).
    destruct (findFirst (pathItem t) l) as [pc|] eqn:Hpc; simpl; [|done].
    apply findFirst_Some in Hpc as (l1 & c & l2 & _ & Hc & _).
    destruct (pathItem_head _ _ _ Hc) as [rest ->]. simpl.
    by rewrite <- app_assoc.
Qed.

Lemma walkTreeItems_path pd t ids :
  walkTreeItems pd t ids =
    walked (pathTo pd t) (match pd with PArray _ => trail | PItem _ => trailItem end) ids.
Proof.
  destruct pd as [l|n]; unfold pathTo; simpl.
  - apply walkLoop_path, Forall_forall. intros n _. apply walkItem_path.
  - rewrite walkItem_path. by destruct (pathItem t n).
Qed.

Lemma descendants_nodes n x : x ∈ descendants n → x ∈ nodes n.
Proof. rewrite nodes_unfold. by right. Qed.

Lemma descendants_branch a f l q : descendants (Node a f (Some l) q) = flat_map nodes l.
Proof. done. Qed.

Lemma descendants_trans n a d :
  a ∈ nodes n → d ∈ descendants a → d ∈ descendants n.
Proof.
  rewrite nodes_unfold. intros Ha Hd. apply elem_of_cons in Ha as [->|Ha]; [done|].
  destruct n as [b f [l|] q]; simpl in *; [|by apply elem_of_nil in Ha].
  apply elem_of_flat_map in Ha as (c & Hc & Ha).
  apply elem_of_flat_map. exists c. split; [done|].
  eapply nodes_trans; [exact Ha|]. by apply descendants_nodes.
Qed.

Lemma above_child t c l a f q x :
  c ∈ l → above t c x → above t (Node a f (Some l) q) x.
Proof.
  intros Hc (y & d & Hy & Hx & Hd & Ht). exists y, d. split_and!; try done.
  simpl. right. apply elem_of_flat_map. eauto.
Qed.

Lemma pathItem_None t n : ¬ hasId t n → pathItem t n = None.
Proof.
  induction n as [a f q|a f l q IH] using ProcessedItem_ind; intros Hno; simpl.
  - rewrite bool_decide_eq_false_2; [done|].
    intros Heq. apply Hno. exists (Node a f None q). split; [left|done].
  - rewrite bool_decide_eq_false_2.
    2:{ intros Heq. apply Hno. exists (Node a f (Some l) q). split; [left|done]. }
    replace (findFirst (pathItem t) l) with (@None (list string)); [done|].
    symmetry. apply findFirst_None.
    rewrite Forall_forall in IH |- *. intros c Hc. apply IH; [done|].
    intros (d & Hd & Ht). apply Hno. exists d. split; [|done].
    simpl. right. apply elem_of_flat_map. eauto.
Qed.

Lemma pathItem_sound t n p :
  pathItem t n = Some p →
  hasId t n ∧ t ∈ p ∧ ∀ x, x ∈ p → x = t ∨ above t n x.
Proof.
  revert p. induction n as [a f q|a f l q IH] using ProcessedItem_ind; intros p; simpl.
  - case_bool_decide as Heq; [|done]. intros [= <-]. split_and!.
    + exists (Node a f None q). split; [left|done].
    + rewrite Heq. left.
    + intros x Hx. apply list_elem_of_singleton in Hx. left. congruence.
  - case_bool_decide as Heq.
    + intros [= <-]. split_and!.
      * exists (Node a f (Some l) q). split; [left|done].
      * rewrite Heq. left.
      * intros x Hx. apply list_elem_of_singleton in Hx. left. congruence.
    + destruct (findFirst (pathItem t) l) as [pc|] eqn:Hpc; simpl; [|done].
      intros [= <-].
      apply findFirst_Some in Hpc as (l1 & c & l2 & -> & Hc & _).
      apply Forall_app in IH as [_ IH]. apply Forall_cons in IH as [IH _].
      destruct (IH _ Hc) as ((d & Hd & Ht) & Htp & Hp).
      assert (c ∈ l1 ++ c :: l2) as Hcl by (apply elem_of_app; right; left).
      assert (d ∈ flat_map nodes (l1 ++ c :: l2)) as Hdl
        by (apply elem_of_flat_map; eauto).
      split_and!.
      * exists d. split; [by right|done].
      * by right.
      * intros x Hx. apply elem_of_cons in Hx as [->|Hx].
        -- right. exists (Node a f (Some (l1 ++ c :: l2)) q), d.
           split_and!; [left|done|done|done].
        -- destruct (Hp x Hx) as [?|Hab]; [by left|right].
           by eapply above_child.
Qed.

(** In a listing without repeated ids, two nodes with the same id lie in the
    same subtree of a forest. *)
Lemma NoDup_same_subtree l c c' x y :
  NoDup (nodeId <$> flat_map nodes l) →
  c ∈ l → c' ∈ l → x ∈ nodes c → y ∈ nodes c' → nodeId x = nodeId y →
  c = c'.
Proof.
  induction l as [|z l IH]; csimpl; intros Hnd Hc Hc' Hx Hy Heq.
  - by apply elem_of_nil in Hc.
  - rewrite fmap_app in Hnd. apply NoDup_app in Hnd as (Hnd1 & Hdisj & Hnd2).
    assert (∀ u v w, u ∈ nodes z → w ∈ l → v ∈ nodes w → nodeId u ≠ nodeId v) as Hsep.
    { intros u v w Hu Hw Hv Huv. apply (Hdisj (nodeId u)).
      - by apply list_elem_of_fmap_2.
      - rewrite Huv. apply list_elem_of_fmap_2, elem_of_flat_map. eauto. }
    apply elem_of_cons in Hc as [->|Hc]; apply elem_of_cons in Hc' as [->|Hc'].
    + done.
    + by destruct (Hsep x y c').
    + by destruct (Hsep y x c).
    + by apply IH.
Qed.

Lemma NoDup_subtree l c :
  NoDup (nodeId <$> flat_map nodes l) → c ∈ l → NoDup (nodeId <$> nodes c).
Proof.
  induction l as [|z l IH]; csimpl; intros Hnd Hc.
  - by apply elem_of_nil in Hc.
  - rewrite fmap_app in Hnd. apply NoDup_app in Hnd as (Hnd1 & _ & Hnd2).
    apply elem_of_cons in Hc as [->|Hc]; auto.
Qed.

Lemma findFirst_pathItem_complete t l pc :
  Forall (λ n, ∀ p, NoDup (nodeId <$> nodes n) → pathItem t n = Some p →
               ∀ x, above t n x → x ∈ p) l →
  NoDup (nodeId <$> flat_map nodes l) →
  findFirst (pathItem t) l = Some pc →
  ∀ a d, a ∈ flat_map nodes l → d ∈ descendants a → nodeId d = t → nodeId a ∈ pc.
Proof.
  intros IH Hnd Hpc a d Ha Hd Ht.
  apply findFirst_Some in Hpc as (l1 & c & l2 & -> & Hc & _).
  assert (c ∈ l1 ++ c :: l2) as Hcl by (apply elem_of_app; right; left).
  rewrite Forall_forall in IH.
  destruct (pathItem_sound _ _ _ Hc) as ((d0 & Hd0 & Ht0) & _ & _).
  apply elem_of_flat_map in Ha as (c' & Hc' & Ha).
  assert (d ∈ nodes c') as Hdc'
    by (eapply nodes_trans; [exact Ha|by apply descendants_nodes]).
  assert (c' = c) as ->.
  { apply (NoDup_same_subtree _ c' c d d0 Hnd); try done. congruence. }
  apply (IH c Hcl pc); [by eapply NoDup_subtree|done|].
  by exists a, d.
Qed.

Lemma pathItem_complete t n : ∀ p,
  NoDup (nodeId <$> nodes n) → pathItem t n = Some p →
  ∀ x, above t n x → x ∈ p.
Proof.
  induction n as [a f q|a f l q IH] using ProcessedItem_ind;
    intros p Hnd Hp x (y & d & Hy & Hx & Hd & Ht).
  - apply list_elem_of_singleton in Hy as ->. by apply elem_of_nil in Hd.
  - pose proof (descendants_trans _ _ _ Hy Hd) as Hdn.
    rewrite descendants_branch in Hdn.
    csimpl in *. apply NoDup_cons in Hnd as [Hf Hnd].
    case_bool_decide as Heq.
    + destruct Hf. change (id f ∈ nodeId <$> flat_map nodes l).
      rewrite Heq, <- Ht. by apply list_elem_of_fmap_2.
    + destruct (findFirst (pathItem t) l) as [pc|] eqn:Hpc; [|done].
      simpl in Hp. injection Hp as <-.
      subst x. apply elem_of_cons in Hy as [->|Hy]; [left|right].
      by apply (findFirst_pathItem_complete t l pc IH Hnd Hpc y d).
Qed.

Lemma findFirst_is_Some {A B : Type} (f : A → option B) l c :
  c ∈ l → is_Some (f c) → is_Some (findFirst f l).
Proof.
  induction l as [|x l IH]; simpl; intros Hc Hfc.
  - by apply elem_of_nil in Hc.
  - destruct (f x) eqn:Hx; [done|].
    apply elem_of_cons in Hc as [->|Hc]; [|by apply IH].
    rewrite Hx in Hfc. by destruct Hfc.
Qed.

Lemma pathItem_hasId t n : hasId t n → is_Some (pathItem t n).
Proof.
  destruct (pathItem t n) eqn:Hp; [done|]. intros Hid.
  assert (¬ ¬ hasId t n) as Hnn by tauto. destruct Hnn. intros Hh.
  clear Hid. revert Hp Hh.
  induction n as [a f q|a f l q IH] using ProcessedItem_ind; simpl;
    intros Hp (d & Hd & Ht).
  - apply list_elem_of_singleton in Hd as ->. simpl in Ht.
    by rewrite bool_decide_eq_true_2 in Hp.
  - case_bool_decide as Heq; [done|].
    destruct (findFirst (pathItem t) l) as [pc|] eqn:Hpc; [done|].
    apply findFirst_None in Hpc.
    apply elem_of_cons in Hd as [->|Hd]; [done|].
    apply elem_of_flat_map in Hd as (c & Hc & Hd).
    rewrite Forall_forall in IH, Hpc. apply (IH c Hc (Hpc c Hc)). by exists d.
Qed.

(** The ids recorded by the walk over an array of roots. *)
Lemma walkLoop_spec t l :
  NoDup (nodeId <$> flat_map nodes l) →
  let ids := (walkLoop (walkItem t) l []).2 in
  (t ∉ (nodeId <$> flat_map nodes l) → ids = []) ∧
  (t ∈ (nodeId <$> flat_map nodes l) →
   ∀ x, x ∈ ids ↔
        x = t ∨ ∃ a d, a ∈ flat_map nodes l ∧ nodeId a = x ∧
                       d ∈ descendants a ∧ nodeId d = t).
Proof.
  intros Hnd. simpl.
  rewrite (walkLoop_path t l) by (apply Forall_forall; intros n _; apply walkItem_path).
  split.
  - intros Hno. replace (findFirst (pathItem t) l) with (@None (list string)); [done|].
    symmetry. apply findFirst_None, Forall_forall. intros c Hc.
    apply pathItem_None. intros (d & Hd & Ht). apply Hno.
    rewrite <- Ht. apply list_elem_of_fmap_2, elem_of_flat_map. eauto.
  - intros Hin. apply list_elem_of_fmap in Hin as (d & Ht & Hd).
    apply elem_of_flat_map in Hd as (c & Hc & Hd).
    destruct (findFirst_is_Some (pathItem t) l c Hc) as [p Hp].
    { apply pathItem_hasId. by exists d. }
    rewrite Hp. simpl. intros x. rewrite elem_of_trail.
    pose proof Hp as Hp'.
    apply findFirst_Some in Hp' as (l1 & c1 & l2 & -> & Hc1 & _).
    assert (c1 ∈ l1 ++ c1 :: l2) as Hc1l by (apply elem_of_app; right; left).
    destruct (pathItem_sound _ _ _ Hc1) as (_ & Htp & Hsound).
    split.
    + intros Hx. destruct (Hsound x Hx) as [?|(a & d' & Ha & ? & ? & ?)]; [by left|right].
      exists a, d'. split_and!; try done. apply elem_of_flat_map. eauto.
    + intros [->|(a & d' & Ha & <- & Hd' & Ht')]; [done|].
      apply (findFirst_pathItem_complete t (l1 ++ c1 :: l2) p) with (d := d');
        try done.
      apply Forall_forall. intros n _ p0. apply pathItem_complete.
Qed.

(** The ids recorded by the walk from a single root. *)
Lemma walkItem_spec t n :
  NoDup (nodeId <$> nodes n) →
  let ids := (walkItem t n []).2 in
  (t ∉ (nodeId <$> nodes n) → ids = []) ∧
  (nodeId n = t → ids = []) ∧
  (t ∈ (nodeId <$> nodes n) → nodeId n ≠ t →
   ∀ x, x ∈ ids ↔ x = t ∨ above t n x).
Proof.
  intros Hnd. simpl. rewrite walkItem_path. split_and!.
  - intros Hno. rewrite pathItem_None; [done|].
    intros (d & Hd & Ht). apply Hno. rewrite <- Ht. by apply list_elem_of_fmap_2.
  - intros Heq. destruct n as [a f cs q]; simpl in *.
    by rewrite bool_decide_eq_true_2.
  - intros Hin Hne. apply list_elem_of_fmap in Hin as (d & Ht & Hd).
    destruct (pathItem_hasId t n) as [p Hp]; [by exists d|].
    rewrite Hp. simpl.
    destruct (pathItem_sound _ _ _ Hp) as (_ & Htp & Hsound).
    pose proof (pathItem_complete t n p Hnd Hp) as Hcomplete.
    destruct (pathItem_head _ _ _ Hp) as [rest ->].
    destruct rest as [|z rest].
    { apply list_elem_of_singleton in Htp. congruence. }
    intros x. rewrite elem_of_trailItem. split.
    + apply Hsound.
    + intros [->|Hab]; [done|by apply Hcomplete].
Qed.

(** *** Transfer to the caller's data *)

Lemma flat_map_erase l :
  flat_map subItems (eraseItem <$> l) = eraseItem <$> flat_map nodes l.
Proof.
  induction l as [|x l IH]; csimpl; [done|].
  by rewrite fmap_app, subItems_erase, IH.
Qed.

Lemma itemDescendants_erase n :
  itemDescendants (eraseItem n) = eraseItem <$> descendants n.
Proof. destruct n as [a f [l|] q]; simpl; [apply flat_map_erase|done]. Qed.

Lemma properAncestorId_erase pd x t :
  properAncestorId (eraseData pd) x t ↔
  ∃ a d, a ∈ nodesOf pd ∧ nodeId a = x ∧ d ∈ descendants a ∧ nodeId d = t.
Proof.
  unfold properAncestorId. rewrite dataItems_erase. split.
  - intros (i & j & Hi & Hx & Hj & Ht).
    apply list_elem_of_fmap in Hi as (a & -> & Ha).
    rewrite itemDescendants_erase in Hj.
    apply list_elem_of_fmap in Hj as (d & -> & Hd).
    exists a, d. by rewrite <- !itemId_erase.
  - intros (a & d & Ha & Hx & Hd & Ht).
    exists (eraseItem a), (eraseItem d). rewrite !itemId_erase.
    split_and!; try done.
    + by apply list_elem_of_fmap_2.
    + rewrite itemDescendants_erase. by apply list_elem_of_fmap_2.
Qed.

Lemma mount_expandedItems props target :
  initialSelectedItemId props = Some target → target ≠ "" → expandAll props = false →
  expandedItems (mount props) = (walkTreeItems (processedData props) target []).2.
Proof.
  intros Hinit Hne Hall. unfold mount, mountEffect, truthy.
  rewrite Hinit, Hall, bool_decide_eq_false_2 by done. simpl.
  destruct (walkTreeItems (processedData props) target []).2; done.
Qed.

(** C1 (amended): with a non-empty [initialSelectedItemId] and [expandAll]
    unset, the mount-time walk leaves the expansion list empty when no item
    has that id, and also when the data is a single root item that is the
    target; in every other case the ids in the expansion list are exactly the
    target's own id and the ids of its proper ancestors. *)
Theorem mount_expands_path_to_target props target :
  NoDup (dataIds (data props)) →
  initialSelectedItemId props = Some target → target ≠ "" → expandAll props = false →
  let st := mount props in
  (target ∉ dataIds (data props) → expandedItems st = []) ∧
  (∀ i, data props = DataItem i → itemId i = target → expandedItems st = []) ∧
  (target ∈ dataIds (data props) →
   (∀ i, data props = DataItem i → itemId i ≠ target) →
   ∀ x, x ∈ expandedItems st ↔
        x = target ∨ properAncestorId (data props) x target).
Proof.
  intros Hnd Hinit Hne Hall st. subst st.
  rewrite (mount_expandedItems props target) by done.
  unfold processedData, processItems.
  destruct (processItemsFrom_spec (data props) 0) as (He & _ & _).
  pose proof (processItems_ids (data props) 0) as Hids.
  set (pd := (processItemsFrom 0 (data props)).1) in *.
  rewrite <- He, <- Hids in *. clear He Hids.
  destruct pd as [l|n].
  - destruct (walkLoop_spec target l Hnd) as [Hnone Hsome].
    split_and!; [exact Hnone|done|].
    intros Hin _ x. rewrite properAncestorId_erase. apply (Hsome Hin x).
  - assert (nodesOf (PItem n) = nodes n) as Hn
      by (unfold nodesOf; simpl; apply app_nil_r).
    rewrite Hn in *.
    destruct (walkItem_spec target n Hnd) as (Hnone & Hroot & Hsome).
    split_and!; [exact Hnone| |].
    + intros i [= <-]. rewrite itemId_erase. apply Hroot.
    + intros Hin Hnot x. rewrite properAncestorId_erase, Hn.
      apply (Hsome Hin). rewrite <- itemId_erase. by apply Hnot.
Qed.

(** C1, the claim as stated fails: selecting the leaf [D] of [A{B{D,E},C}]
    at mount puts [D] itself in the expansion list, and [D] is not a proper
    ancestor of [D]. *)
Lemma mount_expands_target_itself :
  let props := propsOf (DataArray [treeA]) (Some "D") in
  expandedItems (mount props) = ["D"; "B"; "B"; "A"; "A"] ∧
  ¬ (∀ x, x ∈ expandedItems (mount props) ↔ properAncestorId (data props) x "D").
Proof.
  split; [done|]. intros H.
  assert ("D" ∈ expandedItems (mount (propsOf (DataArray [treeA]) (Some "D")))) as Hin
    by (vm_compute; left).
  apply H in Hin as (i & j & Hi & Hid & Hj & _).
  vm_compute in Hi.
  repeat (apply elem_of_cons in Hi as [->|Hi]; [try discriminate Hid|]).
  - by apply elem_of_nil in Hj.
  - by apply elem_of_nil in Hi.
Qed.

Lemma mount_expands_path_to_target_witness :
  let props := propsOf (DataArray [treeA]) (Some "D") in
  NoDup (dataIds (data props)) ∧
  ("B" ∈ expandedItems (mount props) ↔
   "B" = "D" ∨ properAncestorId (data props) "B" "D").
Proof.
  intros props.
  assert (NoDup (dataIds (data props))) as Hnd
    by (apply (bool_decide_unpack _); vm_compute; exact I).
  split; [exact Hnd|].
  apply (mount_expands_path_to_target props "D").
  - exact Hnd.
  - reflexivity.
  - discriminate.
  - reflexivity.
  - apply (bool_decide_unpack _). vm_compute. exact I.
  - discriminate.
Defined.

(** ** Keyboard navigation (C2, C3, C4, C10) *)

Lemma flat_map_sublist {A B : Type} (g h : A → list B) l :
  Forall (λ x, g x `sublist_of` h x) l → flat_map g l `sublist_of` flat_map h l.
Proof.
  induction 1 as [|x l Hx _ IH]; simpl; [constructor|by apply sublist_app].
Qed.

Lemma visibleItem_sublist expanded n : visibleItem expanded n `sublist_of` nodes n.
Proof.
  induction n as [a f q|a f l q IH] using ProcessedItem_ind; simpl.
  - done.
  - constructor. destruct (includes expanded (id f)).
    + by apply flat_map_sublist.
    + apply sublist_nil_l.
Qed.

Lemma visible_sublist expanded pd : visible expanded pd `sublist_of` nodesOf pd.
Proof.
  apply flat_map_sublist, Forall_forall. intros n _. apply visibleItem_sublist.
Qed.

Lemma visible_NoDup expanded pd :
  NoDup (nodeId <$> nodesOf pd) → NoDup (nodeId <$> visible expanded pd).
Proof.
  intros Hnd. apply (sublist_NoDup _ _ Hnd). apply fmap_sublist, visible_sublist.
Qed.

Lemma findIndex_middle pre cur post :
  NoDup (nodeId <$> (pre ++ cur :: post)) →
  findIndex (nodeId cur) (pre ++ cur :: post) = Some (length pre).
Proof.
  intros Hnd. unfold findIndex.
  replace (list_find (λ n, nodeId n = nodeId cur) (pre ++ cur :: post))
    with (Some (length pre, cur)); [done|].
  symmetry. apply list_find_Some. split_and!.
  - apply list_lookup_middle. done.
  - done.
  - intros j y Hj Hlt Heq.
    assert (j = length pre); [|lia].
    apply (NoDup_lookup _ j (length pre) (nodeId cur) Hnd).
    + rewrite list_lookup_fmap, Hj. simpl. by rewrite Heq.
    + rewrite list_lookup_fmap, list_lookup_middle; done.
Qed.

Lemma findIndex_None sel l :
  (∀ n, n ∈ l → nodeId n ≠ sel) → findIndex sel l = None.
Proof.
  intros H. unfold findIndex.
  replace (list_find (λ n, nodeId n = sel) l) with (@None (nat * ProcessedItem)); [done|].
  symmetry. apply list_find_None, Forall_forall. intros x Hx. by apply H.
Qed.

Lemma processedData_ids props :
  nodeId <$> nodesOf (processedData props) = dataIds (data props).
Proof. apply processItems_ids. Qed.

Lemma flatNodePointers_lookup props n :
  NoDup (dataIds (data props)) → n ∈ nodesOf (processedData props) →
  flatNodePointers (processedData props) !! nodeId n = Some n.
Proof.
  intros Hnd Hn. rewrite flatNodePointers_nodes.
  apply index_lookup_in; [by rewrite processedData_ids|done].
Qed.

(** With unique ids, a selected row that is on screen reaches the [switch],
    with [currentNode] the row itself and [currentIndex] its position. *)
Lemma keyboard_reaches_switch props key st pre cur post :
  NoDup (dataIds (data props)) →
  visible (expandedItems st) (processedData props) = pre ++ cur :: post →
  selectedItemId st = Some (nodeId cur) → nodeId cur ≠ "" →
  handleTreeKeyboardNavigation props key st =
    keySwitch props key st cur (pre ++ cur :: post) (length pre).
Proof.
  intros Hnd Hvis Hsel Hne. unfold handleTreeKeyboardNavigation.
  rewrite Hsel. simpl. rewrite bool_decide_eq_false_2 by done. simpl.
  assert (cur ∈ nodesOf (processedData props)) as Hcur.
  { apply (visible_subseteq (expandedItems st)). rewrite Hvis.
    apply elem_of_app. right. left. }
  rewrite flatNodePointers_lookup by done.
  rewrite collectNodes_visible, Hvis.
  rewrite findIndex_middle; [done|].
  rewrite <- Hvis. apply visible_NoDup. by rewrite processedData_ids.
Qed.

(** C10: when nothing is selected, or the selected id is not a key of the
    flat index, or no row of the flattened visible list has the selected id,
    a key event changes nothing: selection, expansion list, drag source and
    callback trace are all as before, for each of the four arrow keys (and any
    other key). *)
Theorem keyboard_ignores_unlocated_selection props key st :
  selectedItemId st = None ∨
  (∃ sel, selectedItemId st = Some sel ∧
          flatNodePointers (processedData props) !! sel = None) ∨
  (∃ sel, selectedItemId st = Some sel ∧
          ∀ n, n ∈ visible (expandedItems st) (processedData props) → nodeId n ≠ sel) →
  handleTreeKeyboardNavigation props key st = st.
Proof.
  unfold handleTreeKeyboardNavigation.
  intros [Hsel|[(sel & Hsel & Hflat)|(sel & Hsel & Hvis)]]; rewrite Hsel; simpl.
  - done.
  - rewrite Hflat. by destruct (negb _).
  - rewrite collectNodes_visible, findIndex_None by done.
    destruct (negb _); [done|]. by destruct (_ !! sel).
Qed.

Lemma keyboard_ignores_unlocated_selection_witness :
  let props := propsOf (DataArray [treeA]) None in
  let st := mkState (Some "D") ["B"] None [] in
  handleTreeKeyboardNavigation props ArrowLeft st = st.
Proof.
  intros props st. apply keyboard_ignores_unlocated_selection.
  right. right. exists "D". split; [reflexivity|].
  intros n Hn. vm_compute in Hn.
  apply list_elem_of_singleton in Hn as ->. discriminate.
Defined.

Lemma handleSelectChange_selectedItemId props item st :
  selectedItemId (handleSelectChange props item st) = nodeId <$> item.
Proof. unfold handleSelectChange. by destruct (onSelectChange props). Qed.

Lemma handleSelectChange_expandedItems props item st :
  expandedItems (handleSelectChange props item st) = expandedItems st.
Proof. unfold handleSelectChange. by destruct (onSelectChange props). Qed.

Lemma includes_true l x : x ∈ l → includes l x = true.
Proof. apply bool_decide_eq_true_2. Qed.

Lemma includes_false l x : x ∉ l → includes l x = false.
Proof. apply bool_decide_eq_false_2. Qed.

Lemma processedData_root props r :
  r ∈ roots (processedData props) → parent r = None.
Proof.
  intros Hr. destruct (processItemsFrom_spec (data props) 0) as (_ & _ & Hl).
  rewrite Forall_forall in Hl. by eapply Linked_parent, Hl.
Qed.

Lemma processedData_child props p cs c :
  p ∈ nodesOf (processedData props) → children p = Some cs → c ∈ cs →
  parent c = Some (address p) ∧ nodeAt (processedData props) (address p) = Some p.
Proof.
  intros Hp Hcs Hc. destruct (processItemsFrom_spec (data props) 0) as (_ & _ & Hl).
  split.
  - by eapply child_parent.
  - apply nodeAt_in; [apply NoDup_addresses|done].
Qed.

(** The [parent] reference of a node of the processed data never dangles. *)
Lemma parent_resolves props n :
  n ∈ nodesOf (processedData props) →
  parent n = None ∨
  ∃ p, parent n = Some (address p) ∧
       nodeAt (processedData props) (address p) = Some p.
Proof.
  intros Hn. apply nodesOf_root_or_child in Hn as [Hr|(p & cs & Hp & Hcs & Hc)].
  - left. by apply (processedData_root props).
  - right. exists p. by apply (processedData_child props p cs n).
Qed.

(** C2 (amended): for a selected row that is on screen and has a non-empty
    id, ArrowRight adds the id to the expansion list and keeps the selection
    when the node has at least one child and is collapsed; it selects the
    first child and keeps the expansion list when the node has at least one
    child and is expanded; it changes nothing when [children] is absent or
    empty. *)
Theorem arrowRight_expands_then_enters props st cur :
  NoDup (dataIds (data props)) →
  cur ∈ visible (expandedItems st) (processedData props) →
  selectedItemId st = Some (nodeId cur) → nodeId cur ≠ "" →
  let st' := handleTreeKeyboardNavigation props ArrowRight st in
  (∀ c cs, children cur = Some (c :: cs) → nodeId cur ∉ expandedItems st →
     st' = setExpandedItems (expandedItems st ++ [nodeId cur]) st) ∧
  (∀ c cs, children cur = Some (c :: cs) → nodeId cur ∈ expandedItems st →
     selectedItemId st' = Some (nodeId c) ∧ expandedItems st' = expandedItems st) ∧
  (children cur = None ∨ children cur = Some [] → st' = st).
Proof.
  intros Hnd Hcur Hsel Hne st'. subst st'.
  apply list_elem_of_split in Hcur as (pre & post & Hvis).
  rewrite (keyboard_reaches_switch props ArrowRight st pre cur post) by done.
  unfold keySwitch. split_and!.
  - intros c cs -> Hnot. simpl. by rewrite includes_false.
  - intros c cs -> Hin. simpl. rewrite includes_true by done. simpl.
    by rewrite handleSelectChange_selectedItemId, handleSelectChange_expandedItems.
  - by intros [-> | ->].
Qed.

Lemma arrowRight_expands_then_enters_witness :
  let props := propsOf (DataArray [treeA]) None in
  let st := mkState (Some "B") ["A"] None [] in
  expandedItems (handleTreeKeyboardNavigation props ArrowRight st) = ["A"; "B"] ∧
  selectedItemId (handleTreeKeyboardNavigation props ArrowRight st) = Some "B".
Proof.
  intros props st.
  pose (cur := Node 1 (mkFields "B" "B" None None None None None None None)
                 (Some [Node 2 (mkFields "D" "D" None None None None None None None) None (Some 1);
                        Node 3 (mkFields "E" "E" None None None None None None None) None (Some 1)])
                 (Some 0)).
  assert (NoDup (dataIds (data props))) as Hnd
    by (apply (bool_decide_unpack _); vm_compute; exact I).
  assert (cur ∈ visible (expandedItems st) (processedData props)) as Hcur
    by (vm_compute; right; left).
  assert (nodeId cur ≠ "") as Hne by discriminate.
  destruct (arrowRight_expands_then_enters props st cur Hnd Hcur eq_refl Hne)
    as (Hexp & _ & _).
  rewrite (Hexp _ _ eq_refl); [done|].
  vm_compute. intros H. apply list_elem_of_singleton in H. discriminate.
Defined.

(** C2, the claim as stated fails: a node whose [children] array is present
    but empty is not a leaf, yet ArrowRight on it while collapsed does not add
    its id to the expansion list. *)
Lemma arrowRight_ignores_empty_children :
  let props := propsOf (DataArray [branch "A" []]) None in
  let st := mkState (Some "A") [] None [] in
  (∃ n, flatNodePointers (processedData props) !! "A" = Some n ∧
        n ∈ visible (expandedItems st) (processedData props) ∧
        children n = Some []) ∧
  ("A" ∉ expandedItems st) ∧
  ("A" ∉ expandedItems (handleTreeKeyboardNavigation props ArrowRight st)).
Proof.
  intros props st. split_and!.
  - eexists. split_and!; [reflexivity|vm_compute; left|reflexivity].
  - apply not_elem_of_nil.
  - vm_compute. apply not_elem_of_nil.
Qed.

(** C3 (amended): for a selected row that is on screen and has a non-empty
    id, ArrowDown selects the next row and ArrowUp the previous row of the
    depth-first list of visible rows, the expansion list staying as it is; on
    the last row ArrowDown changes nothing and on the first row ArrowUp
    changes nothing.  For the tree [A{B{D,E},C}] with [A] and [B] expanded and
    [A] selected, the keys Down, Down, Down, Up select [B], [D], [E], [D] in
    that order, whether the tree is passed as the single root item or as an
    array holding it. *)
Theorem arrowDown_arrowUp_follow_visible_rows props st pre cur post :
  NoDup (dataIds (data props)) →
  visible (expandedItems st) (processedData props) = pre ++ cur :: post →
  selectedItemId st = Some (nodeId cur) → nodeId cur ≠ "" →
  let down := handleTreeKeyboardNavigation props ArrowDown st in
  let up := handleTreeKeyboardNavigation props ArrowUp st in
  (∀ next post', post = next :: post' →
     selectedItemId down = Some (nodeId next) ∧ expandedItems down = expandedItems st) ∧
  (post = [] → down = st) ∧
  (∀ pre' prev, pre = pre' ++ [prev] →
     selectedItemId up = Some (nodeId prev) ∧ expandedItems up = expandedItems st) ∧
  (pre = [] → up = st) ∧
  (∀ d, d = DataArray [treeA] ∨ d = DataItem treeA →
     visits (propsOf d None) [ArrowDown; ArrowDown; ArrowDown; ArrowUp]
            (mkState (Some "A") ["A"; "B"] None [])
     = [Some "B"; Some "D"; Some "E"; Some "D"]).
Proof.
  intros Hnd Hvis Hsel Hne down up. subst down up.
  rewrite !(keyboard_reaches_switch props _ st pre cur post) by done.
  unfold keySwitch. split_and!.
  - intros next post' ->.
    replace (Z.of_nat (length pre) <? Z.of_nat (length (pre ++ cur :: next :: post')) - 1)%Z
      with true.
    2:{ symmetry. apply Z.ltb_lt. rewrite length_app. simpl. lia. }
    rewrite handleSelectChange_selectedItemId, handleSelectChange_expandedItems.
    split; [|done].
    rewrite lookup_app_r by lia.
    by replace (length pre + 1 - length pre) with 1 by lia.
  - intros ->.
    replace (Z.of_nat (length pre) <? Z.of_nat (length (pre ++ [cur])) - 1)%Z
      with false; [done|].
    symmetry. apply Z.ltb_ge. rewrite length_app. simpl. lia.
  - intros pre' prev ->.
    replace (0 <? Z.of_nat (length (pre' ++ [prev])))%Z with true.
    2:{ symmetry. apply Z.ltb_lt. rewrite length_app. simpl. lia. }
    rewrite handleSelectChange_selectedItemId, handleSelectChange_expandedItems.
    split; [|done].
    replace (length (pre' ++ [prev]) - 1) with (length pre')
      by (rewrite length_app; simpl; lia).
    rewrite <- app_assoc. simpl. by rewrite list_lookup_middle.
  - by intros ->.
  - by intros d [-> | ->].
Qed.

Lemma arrowDown_arrowUp_follow_visible_rows_witness :
  let props := propsOf (DataArray [treeA]) None in
  let st := mkState (Some "D") ["A"; "B"] None [] in
  selectedItemId (handleTreeKeyboardNavigation props ArrowDown st) = Some "E" ∧
  selectedItemId (handleTreeKeyboardNavigation props ArrowUp st) = Some "B".
Proof.
  intros props st.
  assert (NoDup (dataIds (data props))) as Hnd
    by (apply (bool_decide_unpack _); vm_compute; exact I).
  pose (rows := visible (expandedItems st) (processedData props)).
  pose (nth := λ i, default (Node 0 (mkFields "" "" None None None None None None None) None None)
                            (rows !! i)).
  assert (visible (expandedItems st) (processedData props)
          = [nth 0; nth 1] ++ nth 2 :: [nth 3; nth 4]) as Hvis by reflexivity.
  assert (nodeId (nth 2) ≠ "") as Hne by discriminate.
  destruct (arrowDown_arrowUp_follow_visible_rows props st _ _ _ Hnd Hvis eq_refl Hne)
    as (Hdown & _ & Hup & _).
  split.
  - exact (proj1 (Hdown (nth 3) [nth 4] eq_refl)).
  - exact (proj1 (Hup [nth 0] (nth 1) eq_refl)).
Defined.

(** C3, the claim as stated fails: with only [B] expanded, [A] is collapsed,
    so [A] is the only visible row and the four keys leave [A] selected. *)
Lemma arrowDown_needs_expanded_root :
  let props := propsOf (DataArray [treeA]) None in
  let st := mkState (Some "A") ["B"] None [] in
  visits props [ArrowDown; ArrowDown; ArrowDown; ArrowUp] st
    = [Some "A"; Some "A"; Some "A"; Some "A"] ∧
  visits props [ArrowDown; ArrowDown; ArrowDown; ArrowUp] st
    ≠ [Some "B"; Some "D"; Some "E"; Some "D"].
Proof. split; [reflexivity|discriminate]. Qed.

(** C4 (amended): for a selected row that is on screen and has a non-empty
    id, ArrowLeft removes the id from the expansion list and keeps the
    selection when the id is in the list; otherwise it selects the node in
    whose children array the row is nested and keeps the expansion list; for a
    collapsed root it changes nothing. *)
Theorem arrowLeft_collapses_then_leaves props st cur :
  NoDup (dataIds (data props)) →
  cur ∈ visible (expandedItems st) (processedData props) →
  selectedItemId st = Some (nodeId cur) → nodeId cur ≠ "" →
  let st' := handleTreeKeyboardNavigation props ArrowLeft st in
  (nodeId cur ∈ expandedItems st →
     st' = setExpandedItems (filter (λ i, i ≠ nodeId cur) (expandedItems st)) st ∧
     nodeId cur ∉ expandedItems st') ∧
  (nodeId cur ∉ expandedItems st →
     ∀ p cs, p ∈ nodesOf (processedData props) → children p = Some cs → cur ∈ cs →
       selectedItemId st' = Some (nodeId p) ∧ expandedItems st' = expandedItems st) ∧
  (nodeId cur ∉ expandedItems st → cur ∈ roots (processedData props) → st' = st).
Proof.
  intros Hnd Hcur Hsel Hne st'. subst st'.
  apply list_elem_of_split in Hcur as (pre & post & Hvis).
  rewrite (keyboard_reaches_switch props ArrowLeft st pre cur post) by done.
  unfold keySwitch. split_and!.
  - intros Hin. rewrite includes_true by done. split; [done|].
    simpl. intros H. apply list_elem_of_filter in H as [H _]. done.
  - intros Hnot p cs Hp Hcs Hc. rewrite includes_false by done.
    destruct (processedData_child props p cs cur Hp Hcs Hc) as [-> ->].
    by rewrite handleSelectChange_selectedItemId, handleSelectChange_expandedItems.
  - intros Hnot Hroot. rewrite includes_false by done.
    by rewrite (processedData_root props cur Hroot).
Qed.

Lemma arrowLeft_collapses_then_leaves_witness :
  let props := propsOf (DataArray [treeA]) None in
  let st := mkState (Some "B") ["A"; "B"] None [] in
  handleTreeKeyboardNavigation props ArrowLeft st = mkState (Some "B") ["A"] None [].
Proof.
  intros props st.
  pose (cur := default (Node 0 (mkFields "" "" None None None None None None None) None None)
                       (visible (expandedItems st) (processedData props) !! 1)).
  assert (NoDup (dataIds (data props))) as Hnd
    by (apply (bool_decide_unpack _); vm_compute; exact I).
  assert (cur ∈ visible (expandedItems st) (processedData props)) as Hcur
    by (vm_compute; right; left).
  assert (nodeId cur ≠ "") as Hne by discriminate.
  assert (nodeId cur ∈ expandedItems st) as Hin by (vm_compute; right; left).
  destruct (arrowLeft_collapses_then_leaves props st cur Hnd Hcur eq_refl Hne)
    as (Hcollapse & _ & _).
  exact (proj1 (Hcollapse Hin)).
Defined.

(** C4, the claim as stated fails: mounted with [expandAll] set and [D]
    preselected, nothing is expanded, so the selected node [D] is not on
    screen; it is collapsed and nested under [B], yet ArrowLeft leaves [D]
    selected. *)
Lemma arrowLeft_ignores_hidden_selection :
  let props := mkProps (DataArray [treeA]) (Some "D") true true true in
  let st := mount props in
  selectedItemId st = Some "D" ∧
  ("D" ∉ expandedItems st) ∧
  (∃ n, flatNodePointers (processedData props) !! "D" = Some n ∧
        parentId (processedData props) n = Some "B") ∧
  selectedItemId (handleTreeKeyboardNavigation props ArrowLeft st) = Some "D" ∧
  selectedItemId (handleTreeKeyboardNavigation props ArrowLeft st) ≠ Some "B".
Proof.
  intros props st. split_and!.
  - reflexivity.
  - apply not_elem_of_nil.
  - eexists. split; reflexivity.
  - reflexivity.
  - discriminate.
Qed.

(** ** The outcomes of a key press *)

Lemma flatNodePointers_Some pd sel n :
  flatNodePointers pd !! sel = Some n → n ∈ nodesOf pd ∧ nodeId n = sel.
Proof.
  rewrite flatNodePointers_nodes. intros H.
  by apply index_lookup_Some in H as [?|?].
Qed.

Lemma findIndex_Some sel l i :
  findIndex sel l = Some i → ∃ x, l !! i = Some x ∧ nodeId x = sel.
Proof.
  unfold findIndex. destruct (list_find _ l) as [[j x]|] eqn:Hf; [|done].
  intros [= <-]. apply list_find_Some in Hf as (Hl & Hx & _). eauto.
Qed.

Lemma child_in_nodesOf pd p cs c :
  p ∈ nodesOf pd → children p = Some cs → c ∈ cs → c ∈ nodesOf pd.
Proof.
  intros Hp Hcs Hc. apply elem_of_flat_map in Hp as (r & Hr & Hp).
  apply elem_of_flat_map. exists r. split; [done|].
  eapply nodes_trans; [exact Hp|]. eapply child_in_nodes; eauto.
Qed.

(** The three outcomes of a key press: nothing; ArrowRight appending the
    selected id, which was absent, or ArrowLeft removing the selected id, which
    was present; the selection of a node of the tree. *)
Lemma keyboard_step props key st :
  let st' := handleTreeKeyboardNavigation props key st in
  st' = st ∨
  (∃ sel, selectedItemId st = Some sel ∧
     (key = ArrowRight ∧ (sel ∉ expandedItems st) ∧
        st' = handleToggleExpand sel true st ∨
      key = ArrowLeft ∧ sel ∈ expandedItems st ∧
        st' = handleToggleExpand sel false st)) ∨
  (∃ n, n ∈ nodesOf (processedData props) ∧
        st' = handleSelectChange props (Some n) st).
Proof.
  unfold handleTreeKeyboardNavigation.
  destruct (negb _); [by left|].
  destruct (selectedItemId st) as [sel|] eqn:Hsel; [|by left].
  destruct (_ !! sel) as [cur|] eqn:Hflat; [|by left].
  apply flatNodePointers_Some in Hflat as [Hcur Hid].
  destruct (findIndex _ _) as [i|] eqn:Hidx; [|by left].
  rewrite collectNodes_visible in *.
  apply findIndex_Some in Hidx as (x & Hx & _).
  pose proof (lookup_lt_Some _ _ _ Hx) as Hlt.
  set (rows := visible (expandedItems st) (processedData props)) in *.
  assert (∀ j y, rows !! j = Some y → y ∈ nodesOf (processedData props)) as Hrows.
  { intros j y Hy. apply (visible_subseteq (expandedItems st)).
    by apply list_elem_of_lookup_2 in Hy. }
  destruct key; simpl.
  - destruct (_ <? _)%Z eqn:Hc; [|by left].
    apply Z.ltb_lt in Hc.
    destruct (lookup_lt_is_Some_2 rows (i + 1)) as [y Hy]; [lia|].
    right; right. exists y. rewrite Hy. eauto.
  - destruct (_ <? _)%Z eqn:Hc; [|by left].
    destruct (lookup_lt_is_Some_2 rows (i - 1)) as [y Hy]; [lia|].
    right; right. exists y. rewrite Hy. eauto.
  - destruct (children cur) as [cs|] eqn:Hcs; [|by left].
    destruct cs as [|c cs]; [by left|]. simpl.
    unfold includes. rewrite Hid. case_bool_decide as Hin; simpl.
    + right; right. exists c. split; [|done].
      apply (child_in_nodesOf _ cur (c :: cs)); [done|done|left].
    + right; left. exists sel. split; [done|]. left. by split_and!.
  - unfold includes. rewrite Hid. case_bool_decide as Hin; simpl.
    + right; left. exists sel. split; [done|]. right. by split_and!.
    + apply nodesOf_root_or_child in Hcur as [Hr|(p & cs & Hp & Hcs & Hc)].
      * rewrite (processedData_root props cur Hr). by left.
      * destruct (processedData_child props p cs cur Hp Hcs Hc) as [-> ->].
        right; right. eauto.
  - by left.
Qed.

(** ** Drag and drop, selection (C5, C6) *)

(** C5: the drop handler calls [onDocumentDrag(source, target)] exactly when
    there is a drag source, the callback prop is supplied and the ids of
    source and target differ, and makes no call otherwise; in particular a
    drop of an item onto an item with the same id makes no call.  In every
    case the drag source is reset to none, and selection and expansion are
    untouched. *)
Theorem handleDrop_calls_back_iff_valid props target st :
  let st' := handleDrop props target st in
  draggedItem st' = None ∧
  selectedItemId st' = selectedItemId st ∧
  expandedItems st' = expandedItems st ∧
  (∀ source,
     calls st' = calls st ++ [DocumentDrag source target] ↔
     draggedItem st = Some source ∧ onDocumentDrag props = true ∧
     nodeId source ≠ nodeId target) ∧
  (calls st' = calls st ∨
   ∃ source, calls st' = calls st ++ [DocumentDrag source target]) ∧
  (∀ source, draggedItem st = Some source → nodeId source = nodeId target →
     calls st' = calls st).
Proof.
  unfold handleDrop.
  assert (∀ (l : list Call) c, l ≠ l ++ [c]) as Hneq.
  { intros l c H. apply (f_equal length) in H. rewrite length_app in H. simpl in H. lia. }
  destruct (draggedItem st) as [src|] eqn:Hsrc; simpl.
  - destruct (onDocumentDrag props) eqn:Hcb; simpl.
    + case_bool_decide as Hid; simpl.
      * split_and!; try done; [|by left].
        intros source. split; [intros H; by apply Hneq in H|].
        intros ([= ->] & _ & Hne). done.
      * split_and!; try done; [|right; by exists src|].
        -- intros source. split.
           ++ intros H. apply app_inv_head in H. injection H as ->. done.
           ++ intros ([= ->] & _ & _). done.
        -- intros source [= ->] Heq. done.
    + split_and!; try done; [|by left].
      intros source. split; [intros H; by apply Hneq in H|].
      intros (_ & [=] & _).
  - split_and!; try done; [|by left].
    intros source. split; [intros H; by apply Hneq in H|].
    intros ([=] & _).
Qed.

Lemma handleDrop_calls_back_iff_valid_witness :
  let props := propsOf (DataArray [treeA]) None in
  let item := Node 0 (mkFields "A" "A" None None None None None (Some true) None) None None in
  let st := mkState None [] (Some item) [] in
  draggedItem (handleDrop props item st) = None ∧
  calls (handleDrop props item st) = calls st.
Proof.
  intros props item st.
  destruct (handleDrop_calls_back_iff_valid props item st) as (Hreset & _ & _ & _ & _ & Hself).
  split; [exact Hreset|exact (Hself item eq_refl eq_refl)].
Defined.

Lemma rowClick_selectedItemId props item st :
  selectedItemId (rowClick props item st) = Some (nodeId item).
Proof.
  unfold rowClick, handleSelectChange.
  by destruct (onSelectChange props), (onClick (fields item)).
Qed.

(** C6 (amended): a click on a row sets [selectedItemId] to the id of the
    item, then calls [onSelectChange(item)] (when the prop is supplied) and
    after that the item's own [onClick] (when present), in this order;
    [handleSelectChange(undefined)] sets [selectedItemId] to none and calls
    [onSelectChange(undefined)].  A key press either leaves selection and
    callback trace as they are, or selects a node of the tree and makes the
    same [onSelectChange] call and nothing else: selecting with the keyboard
    never runs the item's [onClick]. *)
Theorem selecting_notifies_and_only_click_runs_onClick props item key st :
  let clicked := rowClick props item st in
  let deselected := handleSelectChange props None st in
  let keyed := handleTreeKeyboardNavigation props key st in
  selectedItemId clicked = Some (nodeId item) ∧
  calls clicked =
    calls st
    ++ (if onSelectChange props then [SelectChange (Some item)] else [])
    ++ (match onClick (fields item) with Some h => [ItemClick h] | None => [] end) ∧
  expandedItems clicked = expandedItems st ∧
  draggedItem clicked = draggedItem st ∧
  selectedItemId deselected = None ∧
  calls deselected =
    calls st ++ (if onSelectChange props then [SelectChange None] else []) ∧
  (selectedItemId keyed = selectedItemId st ∧ calls keyed = calls st ∨
   ∃ n, n ∈ nodesOf (processedData props) ∧
        selectedItemId keyed = Some (nodeId n) ∧
        calls keyed =
          calls st
          ++ (if onSelectChange props then [SelectChange (Some n)] else [])).
Proof.
  intros clicked deselected keyed. split_and!.
  - apply rowClick_selectedItemId.
  - subst clicked. unfold rowClick, handleSelectChange.
    destruct (onSelectChange props), (onClick (fields item)); simpl;
      rewrite ?app_nil_r, <- ?app_assoc; done.
  - subst clicked. unfold rowClick.
    destruct (onClick (fields item)); simpl;
      by rewrite handleSelectChange_expandedItems.
  - subst clicked. unfold rowClick, handleSelectChange.
    by destruct (onSelectChange props), (onClick (fields item)).
  - apply handleSelectChange_selectedItemId.
  - subst deselected. unfold handleSelectChange.
    destruct (onSelectChange props); simpl; by rewrite ?app_nil_r.
  - subst keyed.
    destruct (keyboard_step props key st)
      as [->|[(sel & _ & [(_ & _ & ->)|(_ & _ & ->)])|(n & Hn & ->)]];
      [by left|by left|by left|].
    right. exists n. split_and!; [done|apply handleSelectChange_selectedItemId|].
    unfold handleSelectChange.
    destruct (onSelectChange props); simpl; by rewrite ?app_nil_r.
Qed.

Lemma selecting_notifies_and_only_click_runs_onClick_witness :
  let props := propsOf (DataArray [clickable "X" 1; clickable "Y" 2]) None in
  let item := Node 1 (mkFields "Y" "Y" None None None None (Some 2) None None)
                   None None in
  calls (rowClick props item (initialState props))
  = [SelectChange (Some item); ItemClick 2].
Proof.
  intros props item.
  exact (proj1 (proj2 (selecting_notifies_and_only_click_runs_onClick
                         props item ArrowDown (initialState props)))).
Defined.

(** C6, the claim as stated fails: with [X] selected, ArrowDown selects the
    item [Y], which has an [onClick] handler, and the caller is notified, but
    the handler of [Y] is not run; a click on the row of [Y] runs it. *)
Lemma keyboard_selection_skips_onClick :
  let props := propsOf (DataArray [clickable "X" 1; clickable "Y" 2]) None in
  let st := mkState (Some "X") [] None [] in
  let st' := handleTreeKeyboardNavigation props ArrowDown st in
  ∃ y, flatNodePointers (processedData props) !! "Y" = Some y ∧
       onClick (fields y) = Some 2 ∧
       selectedItemId st' = Some "Y" ∧
       calls st' = [SelectChange (Some y)] ∧
       (ItemClick 2 ∉ calls st') ∧
       calls (rowClick props y st) = [SelectChange (Some y); ItemClick 2].
Proof.
  eexists. split_and!; try reflexivity.
  intros H. apply list_elem_of_singleton in H. discriminate.
Qed.

(** ** Duplicates in the expansion list (C9) *)






(** ** Independence from the allocator (C8) *)

Lemma fmap_flat_map {A B C : Type} (g : B → C) (h : A → list B) l :
  g <$> flat_map h l = flat_map (λ x, g <$> h x) l.
Proof. induction l as [|x l IH]; csimpl; [done|]. by rewrite fmap_app, IH. Qed.

Lemma flat_map_fmap {A B C : Type} (k : B → list C) (e : A → B) l :
  flat_map k (e <$> l) = flat_map (λ x, k (e x)) l.
Proof. induction l as [|x l IH]; csimpl; [done|]. by rewrite IH. Qed.

Lemma flat_map_Forall_ext {A B : Type} (g h : A → list B) l :
  Forall (λ x, g x = h x) l → flat_map g l = flat_map h l.
Proof. induction 1 as [|x l Hx _ IH]; simpl; [done|]. by rewrite Hx, IH. Qed.

Lemma parentLinks_nodes pd n : ∀ par,
  NoDup (address <$> nodesOf pd) →
  (∀ x, x ∈ nodes n → x ∈ nodesOf pd) →
  (∀ p, par = Some p → p ∈ nodesOf pd) →
  Linked (address <$> par) n →
  (λ x, (nodeId x, parentId pd x)) <$> nodes n = nesting (nodeId <$> par) (eraseItem n).
Proof.
  induction n as [a f q|a f l q IH] using ProcessedItem_ind;
    intros par Hna Hsub Hpar Hl.
  - apply Linked_parent in Hl. simpl in Hl. subst q. csimpl. f_equal. f_equal.
    unfold parentId. simpl. destruct par as [p|]; simpl; [|done].
    by rewrite nodeAt_in by auto.
  - pose proof (Linked_children _ _ l Hl eq_refl) as Hcs.
    apply Linked_parent in Hl. simpl in Hl, Hcs. subst q. csimpl. f_equal.
    + f_equal. unfold parentId. simpl. destruct par as [p|]; simpl; [|done].
      by rewrite nodeAt_in by auto.
    + rewrite fmap_flat_map, flat_map_fmap. apply flat_map_Forall_ext.
      set (n := Node a f (Some l) (address <$> par)) in *.
      rewrite Forall_forall in IH, Hcs |- *. intros c Hc.
      apply (IH c Hc (Some n)); [done| | |by apply Hcs].
      * intros x Hx. apply Hsub. right. apply elem_of_flat_map. eauto.
      * intros p [= <-]. apply Hsub. left.
Qed.

Lemma parentLinks_nesting data next :
  parentLinks (processItemsFrom next data).1 = dataNesting data.
Proof.
  destruct (processItemsFrom_spec data next) as (He & _ & Hl).
  pose proof (NoDup_addresses data next) as Hna.
  set (pd := (processItemsFrom next data).1) in *.
  rewrite <- He. unfold parentLinks, dataNesting, nodesOf.
  replace (dataRoots (eraseData pd)) with (eraseItem <$> roots pd) by by destruct pd.
  rewrite fmap_flat_map, flat_map_fmap. apply flat_map_Forall_ext.
  rewrite Forall_forall in Hl |- *. intros r Hr.
  apply (parentLinks_nodes pd r None); [done| |done|by apply Hl].
  intros x Hx. apply elem_of_flat_map. eauto.
Qed.

(** C8: the result of the builder does not depend on the state of the
    allocator it starts from.  Two runs on the same input, which create
    different objects, yield the same copy of the input, the same set of keys
    of the flat index and the same parent links (as pairs of the id of a node
    and the id of the node its parent reference resolves to); these are
    determined by the input alone, which the builder only reads. *)
Theorem processItems_independent_of_allocator data next next' :
  let pd := (processItemsFrom next data).1 in
  let pd' := (processItemsFrom next' data).1 in
  eraseData pd = eraseData pd' ∧
  dom (flatNodePointers pd) = dom (flatNodePointers pd') ∧
  parentLinks pd = parentLinks pd' ∧
  eraseData pd = data ∧
  dom (flatNodePointers pd) = list_to_set (dataIds data) ∧
  parentLinks pd = dataNesting data.
Proof.
  intros pd pd'.
  assert (∀ n, dom (flatNodePointers (processItemsFrom n data).1)
               = list_to_set (dataIds data)) as Hdom.
  { intros n. rewrite flatNodePointers_nodes, dom_index, dom_empty_L.
    by rewrite processItems_ids, (left_id_L ∅ (∪)). }
  assert (∀ n, eraseData (processItemsFrom n data).1 = data) as Herase.
  { intros n. by destruct (processItemsFrom_spec data n) as (-> & _). }
  subst pd pd'. rewrite !Hdom, !Herase, !parentLinks_nesting. done.
Qed.

Lemma processItems_independent_of_allocator_witness :
  parentLinks (processItemsFrom 7 (DataArray [treeA])).1
  = parentLinks (processItemsFrom 0 (DataArray [treeA])).1.
Proof.
  exact (proj1 (proj2 (proj2
           (processItems_independent_of_allocator (DataArray [treeA]) 7 0)))).
Defined.

(** * Further properties of the component *)

(** ** The visible rows *)

Lemma visibleItem_head expanded n : n ∈ visibleItem expanded n.
Proof. destruct n as [a f [l|] q]; left. Qed.

Lemma visibleItem_mono e e' n :
  (∀ x, x ∈ e → x ∈ e') → visibleItem e n ⊆ visibleItem e' n.
Proof.
  intros Hsub.
  induction n as [a f q|a f l q IH] using ProcessedItem_ind; simpl; [done|].
  intros x Hx. apply elem_of_cons in Hx as [->|Hx]; [left|right].
  unfold includes in *. case_bool_decide as Hin; [|by apply elem_of_nil in Hx].
  rewrite bool_decide_eq_true_2 by auto.
  apply elem_of_flat_map in Hx as (c & Hc & Hx).
  apply elem_of_flat_map. exists c. split; [done|].
  rewrite Forall_forall in IH. by apply IH.
Qed.

Lemma visible_mono e e' pd :
  (∀ x, x ∈ e → x ∈ e') → visible e pd ⊆ visible e' pd.
Proof.
  intros Hsub x Hx. apply elem_of_flat_map in Hx as (r & Hr & Hx).
  apply elem_of_flat_map. exists r. split; [done|].
  by apply (visibleItem_mono e e').
Qed.

(** The children of an expanded visible row are visible. *)
Lemma visibleItem_child e n x cs c :
  x ∈ visibleItem e n → children x = Some cs → nodeId x ∈ e → c ∈ cs →
  c ∈ visibleItem e n.
Proof.
  intros Hx Hcs Hin Hc. revert Hx.
  induction n as [a f q|a f l q IH] using ProcessedItem_ind; simpl; intros Hx.
  - apply list_elem_of_singleton in Hx as ->. done.
  - apply elem_of_cons in Hx as [->|Hx]; right.
    + simpl in Hcs. injection Hcs as <-.
      rewrite includes_true by done.
      apply elem_of_flat_map. exists c. split; [done|apply visibleItem_head].
    + destruct (includes e (id f)); [|by apply elem_of_nil in Hx].
      apply elem_of_flat_map in Hx as (c' & Hc' & Hx).
      apply elem_of_flat_map. exists c'. split; [done|].
      rewrite Forall_forall in IH. by apply IH.
Qed.

Lemma visible_child e pd x cs c :
  x ∈ visible e pd → children x = Some cs → nodeId x ∈ e → c ∈ cs →
  c ∈ visible e pd.
Proof.
  intros Hx Hcs Hin Hc. apply elem_of_flat_map in Hx as (r & Hr & Hx).
  apply elem_of_flat_map. exists r. split; [done|].
  by apply (visibleItem_child e r x cs c).
Qed.

(** A visible row is a root of its subtree or a child of an expanded visible
    row. *)
Lemma visibleItem_root_or_child e n x :
  x ∈ visibleItem e n →
  x = n ∨ ∃ p cs, p ∈ visibleItem e n ∧ children p = Some cs ∧ x ∈ cs.
Proof.
  induction n as [a f q|a f l q IH] using ProcessedItem_ind; simpl; intros Hx;
    apply elem_of_cons in Hx as [->|Hx]; eauto.
  - by apply elem_of_nil in Hx.
  - right. destruct (includes e (id f)) eqn:Hinc; [|by apply elem_of_nil in Hx].
    apply elem_of_flat_map in Hx as (c & Hc & Hx).
    rewrite Forall_forall in IH.
    destruct (IH c Hc Hx) as [->|(p & cs & Hp & Hcs & Hxc)].
    + exists (Node a f (Some l) q), l. split_and!; [left|done|done].
    + exists p, cs. split_and!; [right|done|done].
      apply elem_of_flat_map. eauto.
Qed.

Lemma visible_root_or_child e pd x :
  x ∈ visible e pd →
  x ∈ roots pd ∨ ∃ p cs, p ∈ visible e pd ∧ children p = Some cs ∧ x ∈ cs.
Proof.
  intros Hx. apply elem_of_flat_map in Hx as (r & Hr & Hx).
  destruct (visibleItem_root_or_child e r x Hx) as [->|(p & cs & Hp & Hcs & Hxc)];
    [by left|right].
  exists p, cs. split_and!; [|done|done]. apply elem_of_flat_map. eauto.
Qed.

(** Collapsing a row does not hide it: with unique ids its own id is not the
    id of any of its ancestors. *)
Lemma visibleItem_filter_self e n x :
  NoDup (nodeId <$> nodes n) → x ∈ visibleItem e n →
  x ∈ visibleItem (filter (λ i, i ≠ nodeId x) e) n.
Proof.
  induction n as [a f q|a f l q IH] using ProcessedItem_ind; csimpl;
    intros Hnd Hx; [done|].
  apply NoDup_cons in Hnd as [Hf Hnd].
  apply elem_of_cons in Hx as [->|Hx]; [left|right].
  unfold includes in *. case_bool_decide as Hin; [|by apply elem_of_nil in Hx].
  apply elem_of_flat_map in Hx as (c & Hc & Hx).
  rewrite bool_decide_eq_true_2.
  - apply elem_of_flat_map. exists c. split; [done|].
    rewrite Forall_forall in IH. apply IH; [done| |done].
    by apply (NoDup_subtree l).
  - apply list_elem_of_filter. split; [|done].
    intros Heq. apply Hf. change (id f ∈ nodeId <$> flat_map nodes l).
    rewrite Heq. apply list_elem_of_fmap_2, elem_of_flat_map.
    exists c. split; [done|]. by apply (visibleItem_subseteq e).
Qed.

Lemma visible_filter_self e pd x :
  NoDup (nodeId <$> nodesOf pd) → x ∈ visible e pd →
  x ∈ visible (filter (λ i, i ≠ nodeId x) e) pd.
Proof.
  intros Hnd Hx. apply elem_of_flat_map in Hx as (r & Hr & Hx).
  apply elem_of_flat_map. exists r. split; [done|].
  apply visibleItem_filter_self; [|done]. by apply (NoDup_subtree (roots pd)).
Qed.

(** ** What a key press can do *)

(** X1: a key press does one of three things: nothing; a toggle of the
    selected id in the expansion list, which is ArrowRight appending the id
    when it is absent or ArrowLeft removing it when it is present, so that
    its membership flips; or a selection of a node of the processed tree, with
    the same notification as a click.  So no key ever clears a selection,
    touches the drag source or changes whether an id other than the selected
    one is in the expansion list. *)
Theorem keyboard_step_cases props key st :
  let st' := handleTreeKeyboardNavigation props key st in
  (st' = st ∨
   (∃ sel, selectedItemId st = Some sel ∧
      st' = handleToggleExpand sel (negb (includes (expandedItems st) sel)) st ∧
      (key = ArrowRight ∧ (sel ∉ expandedItems st) ∨
       key = ArrowLeft ∧ sel ∈ expandedItems st) ∧
      (sel ∈ expandedItems st' ↔ sel ∉ expandedItems st)) ∨
   (∃ n, n ∈ nodesOf (processedData props) ∧
         st' = handleSelectChange props (Some n) st)) ∧
  draggedItem st' = draggedItem st ∧
  (is_Some (selectedItemId st) → is_Some (selectedItemId st')) ∧
  (∀ x, selectedItemId st ≠ Some x →
        (x ∈ expandedItems st' ↔ x ∈ expandedItems st)).
Proof.
  intros st'. pose proof (keyboard_step props key st) as Hcases.
  fold st' in Hcases.
  destruct Hcases as [Hst|[(sel & Hsel & Htoggle)|(n & Hn & Hst)]].
  - rewrite Hst. split_and!; [by left|done|done|done].
  - destruct Htoggle as [(Hkey & Hin & Hst)|(Hkey & Hin & Hst)]; rewrite Hst.
    + split_and!; [|done|done|].
      * right; left. exists sel. rewrite includes_false by done.
        split_and!; [done|done|by left|]. simpl.
        rewrite elem_of_app, list_elem_of_singleton. tauto.
      * intros x Hx. assert (x ≠ sel) as Hne by congruence. simpl.
        rewrite elem_of_app, list_elem_of_singleton. tauto.
    + split_and!; [|done|done|].
      * right; left. exists sel. rewrite includes_true by done.
        split_and!; [done|done|by right|]. simpl.
        rewrite list_elem_of_filter. tauto.
      * intros x Hx. assert (x ≠ sel) as Hne by congruence. simpl.
        rewrite list_elem_of_filter. tauto.
  - rewrite Hst.
    rewrite handleSelectChange_selectedItemId, handleSelectChange_expandedItems.
    split_and!; [right; right; by exists n| |by eexists|done].
    unfold handleSelectChange. by destruct (onSelectChange props).
Qed.

(** ** The selection stays on screen *)

(** X2: with unique ids, if the selected id is the id of a row that is on
    screen, it still is after any key press: moving up or down selects a
    visible row, expanding keeps the row visible, entering selects a child of
    an expanded visible row, collapsing the row does not hide it, and leaving
    selects its visible parent. *)
Theorem keyboard_keeps_selection_visible props key st :
  NoDup (dataIds (data props)) →
  selectionVisible props st →
  selectionVisible props (handleTreeKeyboardNavigation props key st).
Proof.
  intros Hnd (cur & Hcur & Hsel).
  destruct (decide (nodeId cur = "")) as [Hempty|Hne].
  { unfold handleTreeKeyboardNavigation, truthy. rewrite Hsel, Hempty. simpl.
    exists cur. by rewrite Hempty in *. }
  pose proof Hcur as Hvis.
  apply list_elem_of_split in Hvis as (pre & post & Hvis).
  rewrite (keyboard_reaches_switch props key st pre cur post) by done.
  unfold selectionVisible.
  destruct key; simpl.
  - destruct (_ <? _)%Z eqn:Hc; [|by exists cur].
    apply Z.ltb_lt in Hc. rewrite length_app in Hc. simpl in Hc.
    destruct post as [|next post]; [simpl in Hc; lia|].
    rewrite handleSelectChange_selectedItemId, handleSelectChange_expandedItems.
    rewrite lookup_app_r by lia.
    replace (length pre + 1 - length pre) with 1 by lia. simpl.
    exists next. split; [|done]. rewrite Hvis.
    apply elem_of_app. right. right. left.
  - destruct (_ <? _)%Z eqn:Hc; [|by exists cur].
    apply Z.ltb_lt in Hc.
    rewrite handleSelectChange_selectedItemId, handleSelectChange_expandedItems.
    destruct (lookup_lt_is_Some_2 pre (length pre - 1)) as [prev Hprev]; [lia|].
    rewrite (lookup_app_l_Some _ _ _ _ Hprev). simpl.
    exists prev. split; [|done]. rewrite Hvis.
    apply elem_of_app. left. by apply list_elem_of_lookup_2 in Hprev.
  - destruct (children cur) as [[|c cs]|] eqn:Hcs; simpl; try by exists cur.
    unfold includes. case_bool_decide as Hin; simpl.
    + rewrite handleSelectChange_selectedItemId, handleSelectChange_expandedItems.
      exists c. split; [|done].
      apply (visible_child _ _ cur (c :: cs)); [done|done|done|left].
    + exists cur. split; [|done].
      apply (visible_mono (expandedItems st)); [|done].
      intros x Hx. apply elem_of_app. by left.
  - unfold includes. case_bool_decide as Hin; simpl.
    + exists cur. split; [|done].
      apply visible_filter_self; [by rewrite processedData_ids|done].
    + destruct (visible_root_or_child _ _ _ Hcur) as [Hr|(p & cs & Hp & Hcs & Hc)].
      * rewrite (processedData_root props cur Hr). by exists cur.
      * assert (p ∈ nodesOf (processedData props)) as Hpn
          by by apply (visible_subseteq (expandedItems st)).
        destruct (processedData_child props p cs cur Hpn Hcs Hc) as [-> ->].
        rewrite handleSelectChange_selectedItemId, handleSelectChange_expandedItems.
        by exists p.
  - by exists cur.
Qed.

Lemma keyboard_keeps_selection_visible_witness :
  let props := propsOf (DataArray [treeA]) None in
  let st := mkState (Some "D") ["A"; "B"] None [] in
  selectionVisible props (handleTreeKeyboardNavigation props ArrowLeft st).
Proof.
  intros props st. apply keyboard_keeps_selection_visible.
  - apply (bool_decide_unpack _). vm_compute. exact I.
  - eexists. split.
    + vm_compute. right. right. left.
    + reflexivity.
Defined.

(** ** How key presses compose *)

Lemma filter_ne_notin (l : list string) x :
  x ∉ l → filter (λ i, i ≠ x) l = l.
Proof.
  induction l as [|y l IH]; intros Hx; [done|].
  apply not_elem_of_cons in Hx as [Hne Hx].
  rewrite filter_cons_True by done. by rewrite IH.
Qed.

Lemma filter_ne_snoc (l : list string) x :
  x ∉ l → filter (λ i, i ≠ x) (l ++ [x]) = l.
Proof.
  intros Hx. rewrite filter_app, filter_ne_notin by done.
  rewrite filter_cons_False by (intros H; by apply H).
  by rewrite filter_nil, app_nil_r.
Qed.

(** X3: with unique ids, on a visible selected row with at least one child
    that is collapsed, ArrowRight followed by ArrowLeft restores the state
    exactly: the id appended by the expansion is the one removed by the
    collapse, and neither key notifies the caller. *)
Theorem arrowRight_arrowLeft_round_trip props st cur c cs :
  NoDup (dataIds (data props)) →
  cur ∈ visible (expandedItems st) (processedData props) →
  selectedItemId st = Some (nodeId cur) → nodeId cur ≠ "" →
  children cur = Some (c :: cs) → nodeId cur ∉ expandedItems st →
  handleTreeKeyboardNavigation props ArrowLeft
    (handleTreeKeyboardNavigation props ArrowRight st) = st.
Proof.
  intros Hnd Hcur Hsel Hne Hcs Hnot.
  pose proof Hcur as Hvis.
  apply list_elem_of_split in Hvis as (pre & post & Hvis).
  rewrite (keyboard_reaches_switch props ArrowRight st pre cur post) by done.
  simpl. rewrite Hcs. simpl. rewrite includes_false by done. simpl.
  set (st1 := handleToggleExpand (nodeId cur) true st).
  assert (cur ∈ visible (expandedItems st1) (processedData props)) as Hcur1.
  { apply (visible_mono (expandedItems st)); [|done].
    intros x Hx. simpl. apply elem_of_app. by left. }
  apply list_elem_of_split in Hcur1 as (pre1 & post1 & Hvis1).
  rewrite (keyboard_reaches_switch props ArrowLeft st1 pre1 cur post1) by done.
  simpl. rewrite includes_true by (apply elem_of_app; right; left).
  unfold handleToggleExpand, setExpandedItems. simpl.
  rewrite filter_ne_snoc by done. by destruct st.
Qed.

Lemma arrowRight_arrowLeft_round_trip_witness :
  let props := propsOf (DataArray [treeA]) None in
  let st := mkState (Some "B") ["A"] None [] in
  handleTreeKeyboardNavigation props ArrowLeft
    (handleTreeKeyboardNavigation props ArrowRight st) = st.
Proof.
  intros props st.
  pose (rows := visible (expandedItems st) (processedData props)).
  pose (nth := λ i, default (parentDiv 0) (rows !! i)).
  pose (kids := default [] (children (nth 1))).
  pose (kid := λ i, default (parentDiv 0) (kids !! i)).
  apply (arrowRight_arrowLeft_round_trip props st (nth 1) (kid 0) [kid 1]).
  - apply (bool_decide_unpack _). vm_compute. exact I.
  - vm_compute. right. left.
  - reflexivity.
  - discriminate.
  - reflexivity.
  - apply (bool_decide_unpack _). vm_compute. exact I.
Defined.

(** X4: with unique ids, for two adjacent visible rows with non-empty ids,
    ArrowDown from the upper one followed by ArrowUp comes back to it, and
    ArrowUp from the lower one followed by ArrowDown comes back to it; the
    expansion list is untouched. *)
Theorem arrowDown_arrowUp_round_trip props st pre upper lower post :
  NoDup (dataIds (data props)) →
  visible (expandedItems st) (processedData props) = pre ++ upper :: lower :: post →
  nodeId upper ≠ "" → nodeId lower ≠ "" →
  let down_up := λ s, handleTreeKeyboardNavigation props ArrowUp
                        (handleTreeKeyboardNavigation props ArrowDown s) in
  let up_down := λ s, handleTreeKeyboardNavigation props ArrowDown
                        (handleTreeKeyboardNavigation props ArrowUp s) in
  (selectedItemId st = Some (nodeId upper) →
     selectedItemId (down_up st) = Some (nodeId upper) ∧
     expandedItems (down_up st) = expandedItems st) ∧
  (selectedItemId st = Some (nodeId lower) →
     selectedItemId (up_down st) = Some (nodeId lower) ∧
     expandedItems (up_down st) = expandedItems st).
Proof.
  intros Hnd Hvis Hu Hl down_up up_down. subst down_up up_down. simpl.
  assert (visible (expandedItems st) (processedData props)
          = (pre ++ [upper]) ++ lower :: post) as Hvis'
    by by rewrite <- app_assoc.
  split; intros Hsel.
  - rewrite (keyboard_reaches_switch props ArrowDown st pre upper (lower :: post))
      by done.
    simpl.
    replace (Z.of_nat (length pre) <? _)%Z with true
      by (symmetry; apply Z.ltb_lt; rewrite length_app; simpl; lia).
    rewrite lookup_app_r by lia.
    replace (length pre + 1 - length pre) with 1 by lia. simpl.
    set (st1 := handleSelectChange props (Some lower) st).
    assert (expandedItems st1 = expandedItems st) as He
      by apply handleSelectChange_expandedItems.
    rewrite (keyboard_reaches_switch props ArrowUp st1 (pre ++ [upper]) lower post);
      [|done|by rewrite He|apply handleSelectChange_selectedItemId|done].
    simpl.
    replace (0 <? _)%Z with true
      by (symmetry; apply Z.ltb_lt; rewrite length_app; simpl; lia).
    rewrite handleSelectChange_selectedItemId, handleSelectChange_expandedItems.
    split; [|done].
    replace (length (pre ++ [upper]) - 1) with (length pre)
      by (rewrite length_app; simpl; lia).
    rewrite <- app_assoc. simpl. by rewrite list_lookup_middle.
  - rewrite (keyboard_reaches_switch props ArrowUp st (pre ++ [upper]) lower post)
      by done.
    simpl.
    replace (0 <? _)%Z with true
      by (symmetry; apply Z.ltb_lt; rewrite length_app; simpl; lia).
    replace (length (pre ++ [upper]) - 1) with (length pre)
      by (rewrite length_app; simpl; lia).
    rewrite <- app_assoc. simpl. rewrite list_lookup_middle by done.
    set (st1 := handleSelectChange props (Some upper) st).
    assert (expandedItems st1 = expandedItems st) as He
      by apply handleSelectChange_expandedItems.
    rewrite (keyboard_reaches_switch props ArrowDown st1 pre upper (lower :: post));
      [|done|by rewrite He|apply handleSelectChange_selectedItemId|done].
    simpl.
    replace (Z.of_nat (length pre) <? _)%Z with true
      by (symmetry; apply Z.ltb_lt; rewrite length_app; simpl; lia).
    rewrite handleSelectChange_selectedItemId, handleSelectChange_expandedItems.
    split; [|done].
    rewrite lookup_app_r by lia.
    by replace (length pre + 1 - length pre) with 1 by lia.
Qed.

Lemma arrowDown_arrowUp_round_trip_witness :
  let props := propsOf (DataArray [treeA]) None in
  let st := mkState (Some "B") ["A"; "B"] None [] in
  selectedItemId
    (handleTreeKeyboardNavigation props ArrowUp
       (handleTreeKeyboardNavigation props ArrowDown st)) = Some "B".
Proof.
  intros props st.
  pose (rows := visible (expandedItems st) (processedData props)).
  pose (nth := λ i, default (parentDiv 0) (rows !! i)).
  assert (NoDup (dataIds (data props))) as Hnd
    by (apply (bool_decide_unpack _); vm_compute; exact I).
  assert (visible (expandedItems st) (processedData props)
          = [nth 0] ++ nth 1 :: nth 2 :: [nth 3; nth 4]) as Hvis by reflexivity.
  assert (nodeId (nth 1) ≠ "") as H1 by discriminate.
  assert (nodeId (nth 2) ≠ "") as H2 by discriminate.
  destruct (arrowDown_arrowUp_round_trip props st _ _ _ _ Hnd Hvis H1 H2) as [Hdu _].
  exact (proj1 (Hdu eq_refl)).
Defined.

(** X5: with unique ids, from a visible selected row, pressing ArrowDown once
    for every row below it selects those rows one after the other, in the
    order of the visible list (all ids involved being non-empty), and the
    expansion list is the same at the end. *)
Theorem repeated_arrowDown_walks_rows props post : ∀ st pre cur,
  NoDup (dataIds (data props)) →
  visible (expandedItems st) (processedData props) = pre ++ cur :: post →
  selectedItemId st = Some (nodeId cur) →
  (∀ n, n ∈ cur :: post → nodeId n ≠ "") →
  visits props (replicate (length post) ArrowDown) st
    = (λ n, Some (nodeId n)) <$> post.
Proof.
  induction post as [|next post IH]; intros st pre cur Hnd Hvis Hsel Hids; [done|].
  csimpl.
  rewrite (keyboard_reaches_switch props ArrowDown st pre cur (next :: post));
    [|done|done|done|apply Hids; left].
  simpl.
  replace (Z.of_nat (length pre) <? _)%Z with true
    by (symmetry; apply Z.ltb_lt; rewrite length_app; simpl; lia).
  rewrite lookup_app_r by lia.
  replace (length pre + 1 - length pre) with 1 by lia. simpl.
  rewrite handleSelectChange_selectedItemId. simpl. f_equal.
  apply (IH _ (pre ++ [cur]) next).
  - done.
  - rewrite handleSelectChange_expandedItems, Hvis. by rewrite <- app_assoc.
  - apply handleSelectChange_selectedItemId.
  - intros n Hn. apply Hids. by right.
Qed.

Lemma repeated_arrowDown_walks_rows_witness :
  let props := propsOf (DataArray [treeA]) None in
  let st := mkState (Some "A") ["A"; "B"] None [] in
  visits props (replicate 4 ArrowDown) st
    = [Some "B"; Some "D"; Some "E"; Some "C"].
Proof.
  intros props st.
  pose (rows := visible (expandedItems st) (processedData props)).
  pose (nth := λ i, default (parentDiv 0) (rows !! i)).
  apply (repeated_arrowDown_walks_rows props [nth 1; nth 2; nth 3; nth 4] st [] (nth 0)).
  - apply (bool_decide_unpack _). vm_compute. exact I.
  - reflexivity.
  - reflexivity.
  - intros n Hn. vm_compute in Hn.
    repeat (apply elem_of_cons in Hn as [->|Hn]; [discriminate|]).
    by apply elem_of_nil in Hn.
Defined.

(** ** More on the mount-time walk *)

Lemma pathTo_is_Some pd t :
  t ∈ (nodeId <$> nodesOf pd) → is_Some (pathTo pd t).
Proof.
  intros Hin. apply list_elem_of_fmap in Hin as (d & -> & Hd).
  apply elem_of_flat_map in Hd as (r & Hr & Hd).
  apply (findFirst_is_Some _ _ r Hr). apply pathItem_hasId. by exists d.
Qed.

Lemma pathTo_None pd t :
  t ∉ (nodeId <$> nodesOf pd) → pathTo pd t = None.
Proof.
  intros Hno. apply findFirst_None, Forall_forall. intros r Hr.
  apply pathItem_None. intros (d & Hd & Ht). apply Hno.
  rewrite <- Ht. apply list_elem_of_fmap_2, elem_of_flat_map. eauto.
Qed.

(** X6: [walkTreeItems] returns [true] exactly when some node of the tree has
    the target id (no uniqueness of ids is needed); it only ever appends to
    [ids], and when it returns [false] it has pushed nothing. *)
Theorem walkTreeItems_found_iff pd t ids :
  let r := walkTreeItems pd t ids in
  (r.1 = true ↔ t ∈ (nodeId <$> nodesOf pd)) ∧
  (r.1 = false → r.2 = ids) ∧
  ids `prefix_of` r.2.
Proof.
  simpl. rewrite walkTreeItems_path.
  destruct (decide (t ∈ (nodeId <$> nodesOf pd))) as [Hin|Hno].
  - destruct (pathTo_is_Some pd t Hin) as [p ->]. simpl.
    split_and!; [done|done|by eexists].
  - rewrite (pathTo_None pd t Hno). simpl.
    split_and!; [by split|done|done].
Qed.

(** A row is visible when the ids above it on its path are expanded. *)
Lemma pathItem_visible e t n : ∀ p,
  pathItem t n = Some p → (∀ x, x ∈ p → x ≠ t → x ∈ e) →
  ∃ d, d ∈ visibleItem e n ∧ nodeId d = t.
Proof.
  induction n as [a f q|a f l q IH] using ProcessedItem_ind; intros p; simpl.
  - case_bool_decide as Heq; [|done]. intros _ _.
    exists (Node a f None q). split; [left|done].
  - case_bool_decide as Heq.
    + intros _ _. exists (Node a f (Some l) q). split; [left|done].
    + destruct (findFirst (pathItem t) l) as [pc|] eqn:Hpc; simpl; [|done].
      intros [= <-] He.
      apply findFirst_Some in Hpc as (l1 & c & l2 & -> & Hc & _).
      apply Forall_app in IH as [_ IH]. apply Forall_cons in IH as [IH _].
      destruct (IH pc Hc) as (d & Hd & Ht).
      { intros x Hx. apply He. by right. }
      exists d. split; [|done]. right.
      rewrite includes_true by (apply He; [left|done]).
      apply elem_of_flat_map. exists c. split; [|done].
      apply elem_of_app. right. left.
Qed.

(** X7: when the target id occurs in the tree (and is non-empty, with
    [expandAll] unset), the state after mounting has the initially selected
    node on screen: the walk has expanded every node above it. *)
Theorem mount_makes_selection_visible props target :
  initialSelectedItemId props = Some target → target ≠ "" →
  expandAll props = false → target ∈ dataIds (data props) →
  selectionVisible props (mount props).
Proof.
  intros Hinit Hne Hall Hin.
  rewrite <- processedData_ids in Hin.
  destruct (pathTo_is_Some _ _ Hin) as [p Hp].
  assert (selectedItemId (mount props) = Some target) as Hsel.
  { unfold mount, mountEffect. destruct (_ || _); [done|].
    rewrite Hinit. simpl. by destruct (0 <? _)%nat. }
  unfold selectionVisible. rewrite Hsel.
  rewrite (mount_expandedItems props target) by done.
  rewrite walkTreeItems_path, Hp. simpl.
  unfold pathTo in Hp. unfold visible.
  destruct (processedData props) as [l|n]; simpl in *.
  - apply findFirst_Some in Hp as (l1 & r & l2 & -> & Hr & _).
    destruct (pathItem_visible (trail p) target r p Hr) as (d & Hd & Ht).
    { intros x Hx _. by apply elem_of_trail. }
    exists d. split; [|by rewrite Ht].
    apply elem_of_flat_map. exists r. split; [|done].
    apply elem_of_app. right. left.
  - destruct (pathItem target n) as [p'|] eqn:Hn; [|done].
    injection Hp as ->.
    destruct (pathItem_visible (trailItem p) target n p Hn) as (d & Hd & Ht).
    { intros x Hx Hxt.
      destruct (pathItem_sound _ _ _ Hn) as (_ & Htp & _).
      destruct p as [|y [|z rest]].
      - by apply elem_of_nil in Hx.
      - apply list_elem_of_singleton in Hx, Htp. congruence.
      - by apply elem_of_trailItem. }
    exists d. split; [|by rewrite Ht].
    rewrite app_nil_r. done.
Qed.

Lemma mount_makes_selection_visible_witness :
  selectionVisible (propsOf (DataItem treeA) (Some "E"))
                   (mount (propsOf (DataItem treeA) (Some "E"))).
Proof.
  apply (mount_makes_selection_visible _ "E").
  - reflexivity.
  - discriminate.
  - reflexivity.
  - apply (bool_decide_unpack _). vm_compute. exact I.
Defined.

(** X8: the mount effect either leaves the state as it is or replaces the
    expansion list by what the walk recorded, whatever the list held before.
    For data passed as an array in which the target id occurs, running the
    effect on any state gives the expansion list of a fresh mount (so a re-run
    discards expansions and collapses made in between), and running it twice
    is the same as running it once. *)
Theorem mountEffect_overrides_expansion props target l st :
  data props = DataArray l →
  initialSelectedItemId props = Some target → target ≠ "" →
  expandAll props = false → target ∈ dataIds (data props) →
  expandedItems (mountEffect props st) = expandedItems (mount props) ∧
  selectedItemId (mountEffect props st) = selectedItemId st ∧
  calls (mountEffect props st) = calls st ∧
  mountEffect props (mountEffect props st) = mountEffect props st.
Proof.
  intros Hdata Hinit Hne Hall Hin.
  rewrite <- processedData_ids in Hin.
  destruct (pathTo_is_Some _ _ Hin) as [p Hp].
  unfold mount, mountEffect, truthy. rewrite Hinit, Hall.
  rewrite bool_decide_eq_false_2 by done. simpl.
  rewrite walkTreeItems_path, Hp. simpl.
  assert (∃ l', processedData props = PArray l') as [l' Hpd].
  { unfold processedData, processItems. rewrite Hdata. simpl.
    destruct (mapS _ _ _). by eexists. }
  rewrite Hpd in *. unfold pathTo in Hp. simpl in Hp.
  apply findFirst_Some in Hp as (l1 & r & l2 & _ & Hr & _).
  destruct (pathItem_head _ _ _ Hr) as [rest ->].
  rewrite trail_trailItem.
  destruct (trailItem (nodeId r :: rest) ++ [nodeId r]) as [|y ys] eqn:Htr.
  { by apply app_eq_nil in Htr as [_ ?]. }
  simpl. done.
Qed.

Lemma mountEffect_overrides_expansion_witness :
  let props := propsOf (DataArray [treeA]) (Some "D") in
  expandedItems (mountEffect props (mkState (Some "C") ["C"; "A"] None []))
  = expandedItems (mount props).
Proof.
  intros props.
  apply (mountEffect_overrides_expansion props "D" [treeA]).
  - reflexivity.
  - reflexivity.
  - discriminate.
  - reflexivity.
  - apply (bool_decide_unpack _). vm_compute. exact I.
Defined.

(** *** How often the walk records an id *)

Lemma occurrences_app x l1 l2 :
  occurrences x (l1 ++ l2) = occurrences x l1 + occurrences x l2.
Proof. unfold occurrences. by rewrite filter_app, length_app. Qed.

Lemma occurrences_notin x l : x ∉ l → occurrences x l = 0.
Proof.
  unfold occurrences. induction l as [|y l IH]; intros Hx; [done|].
  apply not_elem_of_cons in Hx as [Hne Hx].
  rewrite filter_cons_False by congruence. by apply IH.
Qed.

Lemma occurrences_trail p y :
  NoDup p → y ∈ p →
  occurrences y (trail p) = if decide (last p = Some y) then 1 else 2.
Proof.
  induction p as [|x [|z rest] IH]; intros Hnd Hy.
  - by apply elem_of_nil in Hy.
  - apply list_elem_of_singleton in Hy as ->. simpl.
    rewrite decide_True by done. unfold occurrences.
    by rewrite filter_cons_True.
  - change (trail (x :: z :: rest)) with (trail (z :: rest) ++ [x; x]).
    rewrite last_cons_cons, occurrences_app.
    apply NoDup_cons in Hnd as [Hx Hnd].
    apply elem_of_cons in Hy as [->|Hy].
    + rewrite occurrences_notin by by rewrite elem_of_trail.
      rewrite decide_False.
      * unfold occurrences. by rewrite !filter_cons_True.
      * intros Hl. by apply last_Some_elem_of in Hl.
    + rewrite IH by done.
      rewrite (occurrences_notin y [x; x]); [by destruct (decide _)|].
      intros H. apply elem_of_cons in H as [->|H]; [done|].
      apply list_elem_of_singleton in H as ->. done.
Qed.

Lemma pathItem_last t n : ∀ p, pathItem t n = Some p → last p = Some t.
Proof.
  induction n as [a f q|a f l q IH] using ProcessedItem_ind; intros p; simpl.
  - case_bool_decide as Heq; [|done]. intros [= <-]. by rewrite Heq.
  - case_bool_decide as Heq; [intros [= <-]; by rewrite Heq|].
    destruct (findFirst (pathItem t) l) as [pc|] eqn:Hpc; simpl; [|done].
    intros [= <-].
    apply findFirst_Some in Hpc as (l1 & c & l2 & -> & Hc & _).
    apply Forall_app in IH as [_ IH]. apply Forall_cons in IH as [IH _].
    destruct (pathItem_head _ _ _ Hc) as [rest ->].
    rewrite last_cons_cons. by apply IH.
Qed.

Lemma pathItem_sublist t n : ∀ p,
  pathItem t n = Some p → p `sublist_of` (nodeId <$> nodes n).
Proof.
  induction n as [a f q|a f l q IH] using ProcessedItem_ind; intros p; csimpl.
  - case_bool_decide as Heq; [|done]. by intros [= <-].
  - case_bool_decide as Heq.
    + intros [= <-]. constructor. apply sublist_nil_l.
    + destruct (findFirst (pathItem t) l) as [pc|] eqn:Hpc; simpl; [|done].
      intros [= <-]. constructor.
      apply findFirst_Some in Hpc as (l1 & c & l2 & -> & Hc & _).
      apply Forall_app in IH as [_ IH]. apply Forall_cons in IH as [IH _].
      rewrite flat_map_app, fmap_app. apply sublist_inserts_l.
      csimpl. rewrite fmap_app. apply sublist_inserts_r. by apply IH.
Qed.

Lemma NoDup_nodes_sub n x :
  NoDup (nodeId <$> nodes n) → x ∈ nodes n → NoDup (nodeId <$> nodes x).
Proof.
  induction n as [a f q|a f l q IH] using ProcessedItem_ind; csimpl;
    intros Hnd Hx.
  - apply list_elem_of_singleton in Hx as ->. done.
  - apply elem_of_cons in Hx as [->|Hx]; [done|].
    apply NoDup_cons in Hnd as [_ Hnd].
    apply elem_of_flat_map in Hx as (c & Hc & Hx).
    rewrite Forall_forall in IH. apply (IH c Hc); [|done].
    by apply (NoDup_subtree l).
Qed.

Lemma ancestor_id_differs pd a d :
  NoDup (nodeId <$> nodesOf pd) → a ∈ nodesOf pd → d ∈ descendants a →
  nodeId a ≠ nodeId d.
Proof.
  intros Hnd Ha Hd. apply elem_of_flat_map in Ha as (r & Hr & Ha).
  assert (NoDup (nodeId <$> nodes a)) as Hnda.
  { apply (NoDup_nodes_sub r); [|done]. by apply (NoDup_subtree (roots pd)). }
  rewrite nodes_unfold in Hnda. csimpl in Hnda.
  apply NoDup_cons in Hnda as [Hnot _].
  intros Heq. apply Hnot. rewrite Heq. by apply list_elem_of_fmap_2.
Qed.

(** X9: for data passed as an array with unique ids, the list stored by the
    mount-time walk holds the target id exactly once and the id of each of its
    proper ancestors exactly twice. *)
Theorem mount_walk_multiplicity props target l :
  NoDup (dataIds (data props)) → data props = DataArray l →
  initialSelectedItemId props = Some target → target ≠ "" →
  expandAll props = false → target ∈ dataIds (data props) →
  occurrences target (expandedItems (mount props)) = 1 ∧
  ∀ x, properAncestorId (data props) x target →
       occurrences x (expandedItems (mount props)) = 2.
Proof.
  intros Hnd Hdata Hinit Hne Hall Hin.
  rewrite (mount_expandedItems props target) by done.
  unfold processedData, processItems in *.
  destruct (processItemsFrom_spec (data props) 0) as (He & _ & _).
  pose proof (processItems_ids (data props) 0) as Hids.
  set (pd := (processItemsFrom 0 (data props)).1) in *.
  rewrite <- He, <- Hids in *.
  destruct pd as [rs|n]; [|by rewrite Hdata in He].
  destruct (pathTo_is_Some _ _ Hin) as [p Hp].
  rewrite walkTreeItems_path, Hp. simpl.
  pose proof Hp as Hp'. unfold pathTo in Hp'. simpl in Hp'.
  apply findFirst_Some in Hp' as (l1 & r & l2 & Hrs & Hr & _).
  assert (r ∈ rs) as Hrin by (rewrite Hrs; apply elem_of_app; right; left).
  assert (NoDup p) as Hndp.
  { apply (sublist_NoDup _ (nodeId <$> nodes r)).
    - by apply (NoDup_subtree rs).
    - by apply (pathItem_sublist target). }
  pose proof (pathItem_last _ _ _ Hr) as Hlast.
  split.
  - rewrite occurrences_trail; [|done|by apply last_Some_elem_of].
    by rewrite decide_True.
  - intros x Hx.
    apply (properAncestorId_erase (PArray rs)) in Hx as (a & d & Ha & <- & Hd & Ht).
    rewrite occurrences_trail; [|done|].
    + rewrite decide_False; [done|]. rewrite Hlast. intros [= Heq].
      apply (ancestor_id_differs (PArray rs) a d Hnd Ha Hd). congruence.
    + apply (findFirst_pathItem_complete target rs p) with (d := d); try done.
      apply Forall_forall. intros n _ p0. apply pathItem_complete.
Qed.

Lemma mount_walk_multiplicity_witness :
  let props := propsOf (DataArray [treeA]) (Some "D") in
  occurrences "D" (expandedItems (mount props)) = 1.
Proof.
  intros props.
  apply (mount_walk_multiplicity props "D" [treeA]).
  - apply (bool_decide_unpack _). vm_compute. exact I.
  - reflexivity.
  - reflexivity.
  - discriminate.
  - reflexivity.
  - apply (bool_decide_unpack _). vm_compute. exact I.
Defined.

(** ** The flat index when ids repeat *)

Lemma index_last l : ∀ m k,
  index m l !! k =
    match last (filter (λ n, nodeId n = k) l) with
    | Some x => Some x
    | None => m !! k
    end.
Proof.
  induction l as [|y l IH]; intros m k; [done|].
  change (index m (y :: l)) with (index (<[nodeId y := y]> m) l).
  rewrite IH. destruct (decide (nodeId y = k)) as [Heq|Hne].
  - rewrite filter_cons_True by done. rewrite last_cons.
    destruct (last _); [done|]. rewrite <- Heq. apply lookup_insert_eq.
  - rewrite filter_cons_False by done.
    destruct (last _); [done|]. by apply lookup_insert_ne.
Qed.

(** X10: the flat index maps an id to the last node, in depth-first order,
    that has this id, and has no entry for an id that no node has.  (With
    repeated ids the keyboard handler therefore takes [currentNode] from the
    last occurrence, while [findIndex] locates the first visible one.) *)
Theorem flatNodePointers_last_wins pd k :
  flatNodePointers pd !! k = last (filter (λ n, nodeId n = k) (nodesOf pd)).
Proof.
  rewrite flatNodePointers_nodes, index_last. by destruct (last _).
Qed.

(** ** The visible rows at the extremes *)

Lemma visibleItem_nil n : visibleItem [] n = [n].
Proof. by destruct n as [a f [l|] q]. Qed.

Lemma visibleItem_all e n :
  (∀ x, x ∈ nodes n → nodeId x ∈ e) → visibleItem e n = nodes n.
Proof.
  induction n as [a f q|a f l q IH] using ProcessedItem_ind; simpl; intros He;
    [done|].
  f_equal. rewrite includes_true by (apply (He (Node a f (Some l) q)); left).
  apply flat_map_Forall_ext. rewrite Forall_forall in IH |- *.
  intros c Hc. apply IH; [done|]. intros x Hx. apply He. right.
  apply elem_of_flat_map. eauto.
Qed.

(** X11: with an empty expansion list the visible rows are exactly the roots;
    when the id of every node is in the expansion list they are all the nodes
    of the tree; and in every case the roots are visible and the visible rows
    are a subsequence of the depth-first listing of the tree. *)
Theorem visible_extremes e pd :
  visible [] pd = roots pd ∧
  ((∀ n, n ∈ nodesOf pd → nodeId n ∈ e) → visible e pd = nodesOf pd) ∧
  roots pd ⊆ visible e pd ∧
  visible e pd `sublist_of` nodesOf pd.
Proof.
  split_and!.
  - unfold visible. induction (roots pd) as [|r l IH]; simpl; [done|].
    by rewrite visibleItem_nil, IH.
  - intros He. apply flat_map_Forall_ext, Forall_forall. intros r Hr.
    apply visibleItem_all. intros x Hx. apply He.
    apply elem_of_flat_map. eauto.
  - intros r Hr. apply elem_of_flat_map. exists r. split; [done|].
    apply visibleItem_head.
  - apply visible_sublist.
Qed.

(** ** The accordion toggle *)

(** X12: after [syncExpandCollapseState] the id of the node is in the
    expansion list exactly when the accordion reported it open; membership of
    every other id, the selection and the callback trace are unchanged, and a
    second call with the same values changes nothing. *)
Theorem syncExpandCollapseState_agrees item values st :
  let st' := syncExpandCollapseState item values st in
  (nodeId item ∈ expandedItems st' ↔ nodeId item ∈ values) ∧
  (∀ x, x ≠ nodeId item → (x ∈ expandedItems st' ↔ x ∈ expandedItems st)) ∧
  selectedItemId st' = selectedItemId st ∧
  calls st' = calls st ∧
  syncExpandCollapseState item values st' = st'.
Proof.
  assert (∀ s, (nodeId item ∈ expandedItems s ↔ nodeId item ∈ values) →
               syncExpandCollapseState item values s = s) as Hfix.
  { intros s Hs. unfold syncExpandCollapseState, includes.
    rewrite (bool_decide_ext _ _ Hs). by rewrite bool_decide_eq_false_2 by auto. }
  intros st'.
  assert ((nodeId item ∈ expandedItems st' ↔ nodeId item ∈ values) ∧
          (∀ x, x ≠ nodeId item → (x ∈ expandedItems st' ↔ x ∈ expandedItems st)) ∧
          selectedItemId st' = selectedItemId st ∧
          calls st' = calls st) as (H1 & H2 & H3 & H4).
  { subst st'. unfold syncExpandCollapseState, includes.
    case_bool_decide as Hdiff.
    - destruct (decide (nodeId item ∈ values)) as [Hv|Hv].
      + rewrite (bool_decide_eq_true_2 _ Hv). simpl.
        split_and!; try done.
        * split; [done|]. intros _. apply elem_of_app. right. left.
        * intros x Hx. rewrite elem_of_app, list_elem_of_singleton. tauto.
      + rewrite (bool_decide_eq_false_2 _ Hv). simpl.
        split_and!; try done.
        * split; [|done]. intros H. by apply list_elem_of_filter in H as [? _].
        * intros x Hx. rewrite list_elem_of_filter. tauto.
    - split_and!; [|tauto|done|done].
      rewrite <- (bool_decide_eq_true (nodeId item ∈ expandedItems st)),
        <- (bool_decide_eq_true (nodeId item ∈ values)).
      destruct (bool_decide (nodeId item ∈ values)),
        (bool_decide (nodeId item ∈ expandedItems st)); try done;
        by destruct Hdiff. }
  split_and!; try done. by apply Hfix.
Qed.

(** ** Drag and drop gestures *)

(** X13: a drag started on a draggable item and dropped on a target calls
    [onDocumentDrag(item, target)] exactly when the prop is supplied and the
    ids differ, whatever drag source was left over from before; a drag start
    on an item that is not draggable changes nothing; and after a drop a
    further drop makes no call, because the source has been consumed. *)
Theorem drag_then_drop props item target st :
  let st' := handleDrop props target (onDragStart item st) in
  (draggable (fields item) = Some true →
     calls st' =
       calls st ++
       (if onDocumentDrag props && negb (bool_decide (nodeId item = nodeId target))
        then [DocumentDrag item target] else [])) ∧
  (draggable (fields item) ≠ Some true → onDragStart item st = st) ∧
  draggedItem st' = None ∧
  (∀ target', calls (handleDrop props target' st') = calls st').
Proof.
  unfold onDragStart, handleDrop. split_and!.
  - intros ->. simpl. destruct (_ && _); simpl; [done|by rewrite app_nil_r].
  - intros Hd. by destruct (draggable (fields item)) as [[|]|].
  - done.
  - intros target'. simpl. done.
Qed.

(** X14: a row that accepts the drag ([onDragOver] calls [preventDefault] and
    sets its highlight) has a drag source with another id, so a drop on it
    calls [onDocumentDrag(source, row)] when the prop is supplied, clears the
    highlight and consumes the source.  A row whose [droppable] is [false],
    and the row being dragged, never accept. *)
Theorem dropAllowed_drop_calls_back props item st :
  dropAllowed item st = true → onDocumentDrag props = true →
  onDragOver item st false = true ∧
  (∃ source, draggedItem st = Some source ∧
     (onDrop props item st).2
       = setDraggedItem None (call (DocumentDrag source item) st)) ∧
  (onDrop props item st).1 = false ∧
  droppable (fields item) ≠ Some false ∧
  draggedItem st ≠ Some item.
Proof.
  intros Hok Hcb. unfold onDragOver. rewrite Hok.
  unfold dropAllowed in Hok. apply andb_true_iff in Hok as [Hdrop Hsrc].
  destruct (draggedItem st) as [source|] eqn:Hsource; [|done].
  unfold onDrop, handleDrop. rewrite Hsource, Hcb, Hsrc. simpl.
  split_and!; try done.
  - by exists source.
  - intros Hd. by rewrite Hd in Hdrop.
  - intros [= ->]. by rewrite bool_decide_eq_true_2 in Hsrc.
Qed.

Lemma dropAllowed_drop_calls_back_witness :
  let props := propsOf (DataArray [treeA]) None in
  let src := Node 3 (mkFields "E" "E" None None None None None (Some true) None)
                  None (Some 1) in
  let row := Node 4 (mkFields "C" "C" None None None None None None None)
                  None (Some 0) in
  calls (onDrop props row (mkState None [] (Some src) [])).2
  = [DocumentDrag src row].
Proof.
  intros props src row.
  destruct (dropAllowed_drop_calls_back props row (mkState None [] (Some src) [])
              eq_refl eq_refl) as (_ & (source & Hs & Hd) & _).
  injection Hs as <-. by rewrite Hd.
Defined.

(** X15: a drop on the area below the tree calls [onDocumentDrag] with the
    source and the [parent_div] object exactly when there is a drag source
    whose id is not the empty string and the prop is supplied: an item with an
    empty id cannot be dropped there, since the [parent_div] object has the
    empty id.  The drag source is reset in every case. *)
Theorem containerDrop_needs_nonempty_source_id props a st :
  let st' := containerDrop props a st in
  draggedItem st' = None ∧
  (∀ source,
     calls st' = calls st ++ [DocumentDrag source (parentDiv a)] ↔
     draggedItem st = Some source ∧ onDocumentDrag props = true ∧
     nodeId source ≠ "") ∧
  (calls st' = calls st ∨ ∃ source, calls st' = calls st ++ [DocumentDrag source (parentDiv a)]).
Proof.
  unfold containerDrop, handleDrop.
  assert (∀ (l : list Call) c, l ≠ l ++ [c]) as Hneq.
  { intros l c H. apply (f_equal length) in H. rewrite length_app in H. simpl in H. lia. }
  destruct (draggedItem st) as [src|] eqn:Hsrc; simpl.
  - destruct (onDocumentDrag props) eqn:Hcb; simpl.
    + change (nodeId (parentDiv a)) with "".
      case_bool_decide as Hid; simpl.
      * split_and!; [done| |by left].
        intros source. split; [intros H; by apply Hneq in H|].
        intros ([= ->] & _ & Hne). done.
      * split_and!; [done| |right; by exists src].
        intros source. split.
        -- intros H. apply app_inv_head in H. injection H as ->. done.
        -- intros ([= ->] & _ & _). done.
    + split_and!; [done| |by left].
      intros source. split; [intros H; by apply Hneq in H|].
      intros (_ & [=] & _).
  - split_and!; [done| |by left].
    intros source. split; [intros H; by apply Hneq in H|].
    intros ([=] & _).
Qed.

(** ** Notifications and the selection *)

Lemma lastNotified_snoc trace c :
  lastNotified (trace ++ [c]) =
    match c with SelectChange item => item | _ => lastNotified trace end.
Proof. unfold lastNotified. by rewrite foldl_app. Qed.

Lemma handleSelectChange_lastNotified props item st :
  onSelectChange props = true →
  selectedItemId (handleSelectChange props item st)
  = nodeId <$> lastNotified (calls (handleSelectChange props item st)).
Proof.
  intros Hcb. unfold handleSelectChange. rewrite Hcb. simpl.
  by rewrite lastNotified_snoc.
Qed.

Lemma step_lastNotified props a st :
  onSelectChange props = true →
  selectedItemId st = nodeId <$> lastNotified (calls st) →
  selectedItemId (step props a st)
  = nodeId <$> lastNotified (calls (step props a st)).
Proof.
  intros Hcb Hinv. destruct a as [item|item values|key|item|target]; simpl.
  - unfold rowClick. destruct (onClick (fields item)); simpl.
    + rewrite lastNotified_snoc. by apply handleSelectChange_lastNotified.
    + by apply handleSelectChange_lastNotified.
  - unfold syncExpandCollapseState. by destruct (bool_decide _).
  - destruct (keyboard_step props key st)
      as [->|[(sel & _ & [(_ & _ & ->)|(_ & _ & ->)])|(n & _ & ->)]];
      [done|done|done|].
    by apply handleSelectChange_lastNotified.
  - unfold onDragStart. by destruct (draggable (fields item)) as [[|]|].
  - unfold handleDrop. destruct (draggedItem st); [|done].
    destruct (_ && _); [|done]. simpl. by rewrite lastNotified_snoc.
Qed.

(** X16: when [onSelectChange] is supplied and no [initialSelectedItemId] is
    given, then after mounting and any sequence of row clicks, accordion
    changes, key presses, drag starts and drops, the selected id in the state
    is the id of the item passed to the most recent [onSelectChange] call (and
    nothing is selected while no call has been made): the caller has been told
    about every selection. *)
Theorem selection_matches_last_notification props actions :
  onSelectChange props = true → initialSelectedItemId props = None →
  let st := run props actions (mount props) in
  selectedItemId st = nodeId <$> lastNotified (calls st).
Proof.
  intros Hcb Hinit. simpl.
  assert (selectedItemId (mount props)
          = nodeId <$> lastNotified (calls (mount props))) as H0.
  { unfold mount, mountEffect, initialState. by rewrite Hinit. }
  revert H0. generalize (mount props).
  unfold run. induction actions as [|a actions IH]; intros st Hst; [done|].
  simpl. apply IH. by apply step_lastNotified.
Qed.

Lemma selection_matches_last_notification_witness :
  let props := propsOf (DataArray [treeA]) None in
  let rowA := default (parentDiv 0) (roots (processedData props) !! 0) in
  let actions := [RowClick rowA; KeyDown ArrowRight; KeyDown ArrowRight] in
  selectedItemId (run props actions (mount props)) = Some "B" ∧
  selectedItemId (run props actions (mount props))
  = nodeId <$> lastNotified (calls (run props actions (mount props))).
Proof.
  intros props rowA actions. split; [reflexivity|].
  apply (selection_matches_last_notification props actions); reflexivity.
Defined.

(** ** Separation of drag state from selection and expansion *)

(** X17: row clicks, accordion changes and key presses never change the drag
    source, so a drag that was started stays pending until a drop; drag starts
    and drops never change the selection or the expansion list. *)
Theorem drag_state_is_separate props a st :
  match a with
  | RowClick _ | AccordionChange _ _ | KeyDown _ =>
      draggedItem (step props a st) = draggedItem st
  | DragStart _ | DropOn _ =>
      selectedItemId (step props a st) = selectedItemId st ∧
      expandedItems (step props a st) = expandedItems st
  end.
Proof.
  destruct a as [item|item values|key|item|target]; simpl.
  - unfold rowClick, handleSelectChange.
    by destruct (onSelectChange props), (onClick (fields item)).
  - unfold syncExpandCollapseState. by destruct (bool_decide _).
  - destruct (keyboard_step props key st)
      as [->|[(sel & _ & [(_ & _ & ->)|(_ & _ & ->)])|(n & _ & ->)]];
      [done|done|done|].
    unfold handleSelectChange. by destruct (onSelectChange props).
  - unfold onDragStart. by destruct (draggable (fields item)) as [[|]|].
  - unfold handleDrop. destruct (draggedItem st); [|done].
    by destruct (_ && _).
Qed.
